(** * kt-connect: pod lifecycle polling, reference counting and the exec bridge

    A shallow embedding of [pkg/kt/util/collection.go] (the helper [MapPut])
    and of the pod operations of package [cluster] ([waitPodReady],
    [waitPodsReady], [waitPodTerminate], [DecreasePodRef], [ExecInPod]).

    Go maps are reference values, so map objects live in an explicit heap and
    a map variable holds either [nil] or the address of a map object.  The
    cluster client is an external collaborator: its operations are the fields
    of a class over an arbitrary store state, and every function of the
    package is a computation that threads that state and reports the calls
    it makes on the client, in the order it makes them.

    Go's [int] is 64 bits wide here.  The only arithmetic on it is
    [timeoutSec / interval] and [times + 1] with [times] bounded by that
    quotient plus one, neither of which can wrap, so [int] is [Z] and [/]
    is the truncating [Z.quot]. *)

From Stdlib Require Import ZArith List Lia Ascii.
From stdpp Require Import base gmap strings list pretty.

Local Open Scope string_scope.
Local Open Scope Z_scope.

(** * Package util *)

Module util.

(** The contents of one [map[string]string] object. *)
Abbreviation gomap := (gmap string string).

(** The map objects allocated so far, by address. *)
Abbreviation Heap := (gmap positive gomap).

(** A value of type [map[string]string]: [None] is [nil], [Some l] refers to
    the map object at address [l]. *)
Definition mapref := option positive.

(** [make(map[string]string)]: a new, empty map object at an unused address. *)
Definition make (h : Heap) : positive * Heap :=
  let l := fresh (dom h) in (l, <[l := ∅]> h).

(** The entry of [m] under [k], if any.  Reading a [nil] map is allowed in Go
    and finds nothing. *)
Definition entry (m : mapref) (k : string) (h : Heap) : option string :=
  match m with
  | None => None
  | Some l => match h !! l with Some o => o !! k | None => None end
  end.

(** [m[k]]: the zero value [""] stands for a missing entry. *)
Definition index (m : mapref) (k : string) (h : Heap) : string :=
  default "" (entry m k h).

(** [m[k] = v].  Go panics on a [nil] map ("assignment to entry in nil
    map"), which is [None] here. *)
Definition assign (m : mapref) (k v : string) (h : Heap) : option Heap :=
  match m with
  | None => None
  | Some l => Some (alter (<[k := v]>) l h)
  end.

(** [func MapPut(m map[string]string, k, v string)].  The parameter [m] is
    the callee's own variable: the assignment [m = make(...)] rebinds it and
    is not seen by the caller.  The function has no result; the model
    returns the heap after the call, or [None] for a panic. *)
Definition MapPut (m : mapref) (k v : string) (h : Heap) : option Heap :=
  let '(m, h) :=
    match m with
    | None => let '(l, h') := make h in (Some l, h')
    | Some _ => (m, h)
    end in
  assign m k v h.

(** A reference is valid when it is [nil] or its map object exists. *)
Definition valid (m : mapref) (h : Heap) : Prop :=
  match m with None => True | Some l => l ∈ dom h end.

(** The entries of a map value; a [nil] map has none. *)
Definition contents (m : mapref) (h : Heap) : gomap :=
  match m with
  | None => ∅
  | Some l => default ∅ (h !! l)
  end.

(** [len(m)]. *)
Definition len (m : mapref) (h : Heap) : nat := size (contents m h).

(** The entries that [for k, v := range m] visits.  Go leaves the order
    open; the model takes the order of [map_to_list]. *)
Definition range (m : mapref) (h : Heap) : list (string * string) :=
  map_to_list (contents m h).

(** What a value handed to [Contains] as [target] can be, when [obj] is a
    string: nothing at all, a slice or array of strings, a map from strings
    to strings, or a value of a kind other than slice, array and map. *)
Inductive Target :=
| TNil
| TStrings (l : list string)
| TStringMap (m : mapref)
| TOther.

(** The loop of [Contains] over the elements of a slice. *)
Fixpoint Contains_loop (obj : string) (l : list string) : bool :=
  match l with
  | [] => false
  | x :: rest => if String.eqb x obj then true else Contains_loop obj rest
  end.

(** [func Contains(obj interface{}, target interface{}) bool], for a
    string [obj].  [reflect.TypeOf] of a [nil] interface is [nil], and
    calling [Kind] on it panics: [None]. *)
Definition Contains (obj : string) (target : Target) (h : Heap) : option bool :=
  match target with
  | TNil => None
  | TStrings l => Some (Contains_loop obj l)
  | TStringMap m => Some (match entry m obj h with Some _ => true | None => false end)
  | TOther => Some false
  end.

(** The loop of [MapContains] over the entries of [subset]. *)
Fixpoint MapContains_loop (entries : list (string * string)) (fullset : mapref)
    (h : Heap) : bool :=
  match entries with
  | [] => true
  | (sk, sv) :: rest =>
      if negb (String.eqb (index fullset sk h) sv) then false
      else MapContains_loop rest fullset h
  end.

(** [func MapContains(subset, fullset map[string]string) bool]. *)
Definition MapContains (subset fullset : mapref) (h : Heap) : bool :=
  MapContains_loop (range subset h) fullset h.

(** [func MapEquals(src, target map[string]string) bool]. *)
Definition MapEquals (src target : mapref) (h : Heap) : bool :=
  (len src h =? len target h)%nat && MapContains src target h.

(** [for key, value := range m { cp[key] = value }], on the entries that
    the loop visits. *)
Fixpoint assignAll (entries : list (string * string)) (cp : mapref) (h : Heap)
  : option Heap :=
  match entries with
  | [] => Some h
  | (key, value) :: rest =>
      match assign cp key value h with
      | Some h' => assignAll rest cp h'
      | None => None
      end
  end.

(** [func MergeMap(m1, m2 map[string]string) map[string]string]: the map it
    returns and the heap it leaves, or [None] for a panic. *)
Definition MergeMap (m1 m2 : mapref) (h : Heap) : option (mapref * Heap) :=
  let '(l, h) := make h in
  let cp := Some l in
  match assignAll (range m1 h) cp h with
  | None => None
  | Some h =>
      match assignAll (range m2 h) cp h with
      | None => None
      | Some h => Some (cp, h)
      end
  end.

(** The inner loop of [ListEquals]: is [x] an element of [target]? *)
Fixpoint ListEquals_found (x : string) (target : list string) : bool :=
  match target with
  | [] => false
  | y :: rest => if String.eqb x y then true else ListEquals_found x rest
  end.

(** The outer loop of [ListEquals]. *)
Fixpoint ListEquals_loop (src target : list string) : bool :=
  match src with
  | [] => true
  | x :: rest =>
      if negb (ListEquals_found x target) then false else ListEquals_loop rest target
  end.

(** [func ListEquals(src, target []string) bool]. *)
Definition ListEquals (src target : list string) : bool :=
  if negb (length src =? length target)%nat then false
  else ListEquals_loop src target.

End util.

(** * The parts of Go's standard library that the package calls *)

Module strings.

(** The bytes of a string, and back. *)
Definition bytes (s : string) : list N := List.map N_of_ascii (String.list_ascii_of_string s).
Definition text (l : list N) : string := String.string_of_list_ascii (List.map ascii_of_N l).

(** The white space of one byte: tab, line feed, vertical tab, form feed,
    carriage return and space. *)
Definition asciiSpace (c : N) : bool := ((9 <=? c) && (c <=? 13) || (c =? 32))%N.

(** The white space of two bytes in UTF-8: U+0085 and U+00A0. *)
Definition space2 (b1 b2 : N) : bool :=
  ((b1 =? 194) && ((b2 =? 133) || (b2 =? 160)))%N.

(** The white space of three bytes in UTF-8: U+1680, U+2000 to U+200A,
    U+2028, U+2029, U+202F, U+205F and U+3000. *)
Definition space3 (b1 b2 b3 : N) : bool :=
  ((b1 =? 225) && (b2 =? 154) && (b3 =? 128)
   || (b1 =? 226) && (b2 =? 128)
      && ((128 <=? b3) && (b3 <=? 138) || (b3 =? 168) || (b3 =? 169) || (b3 =? 175))
   || (b1 =? 226) && (b2 =? 129) && (b3 =? 159)
   || (b1 =? 227) && (b2 =? 128) && (b3 =? 128))%N.

(** Drops the white space that [unicode.IsSpace] accepts from the head of
    the bytes and stops at the first character that is none, be it another
    character or a byte that does not decode.  With [backwards] the bytes
    are those of the text from its end, so that an encoding is met last
    byte first. *)
Fixpoint dropSpace (backwards : bool) (l : list N) : list N :=
  match l with
  | nil => nil
  | x :: r =>
      if asciiSpace x then dropSpace backwards r
      else
        match r with
        | nil => l
        | y :: r2 =>
            if (if backwards then space2 y x else space2 x y)
            then dropSpace backwards r2
            else
              match r2 with
              | nil => l
              | z :: r3 =>
                  if (if backwards then space3 z y x else space3 x y z)
                  then dropSpace backwards r3
                  else l
              end
        end
  end%list.

(** [strings.TrimSpace]: the white space is cut off at the start and then
    at the end. *)
Definition TrimSpace (s : string) : string :=
  text (List.rev (dropSpace true (List.rev (dropSpace false (bytes s))))).

End strings.

Module strconv.

Definition digit (c : ascii) : option Z :=
  let n := Z.of_N (N_of_ascii c) in
  if (48 <=? n) && (n <=? 57) then Some (n - 48) else None.

(** The two ways [strconv.Atoi] fails. *)
Inductive AtoiError := ErrSyntax | ErrRange.

(** The largest [uint64], and the least number that no longer fits when
    multiplied by ten. *)
Definition maxUint64 : Z := 2 ^ 64 - 1.
Definition cutoff : Z := maxUint64 / 10 + 1.

(** The loop of [strconv.ParseUint] in base 10 over the digits, from the
    left: a byte that is no digit is a syntax error, and a digit with which
    the number no longer fits 64 bits is a range error, reported before the
    bytes after it are looked at. *)
Fixpoint ParseUint (s : string) (n : Z) : Z + AtoiError :=
  match s with
  | EmptyString => inl n
  | String c s' =>
      match digit c with
      | None => inr ErrSyntax
      | Some d =>
          if n >=? cutoff then inr ErrRange
          else
            let n1 := n * 10 + d in
            if n1 >? maxUint64 then inr ErrRange else ParseUint s' n1
      end
  end.

(** [strconv.Atoi]: an optional sign, then one or more decimal digits, with
    a value that fits a signed 64-bit integer. *)
Definition Atoi (s : string) : Z + AtoiError :=
  let '(neg, body) :=
    match s with
    | String "-" r => (true, r)
    | String "+" r => (false, r)
    | _ => (false, s)
    end in
  match body with
  | EmptyString => inr ErrSyntax
  | _ =>
      match ParseUint body 0 with
      | inr e => inr e
      | inl un =>
          if neg then (if un >? 2 ^ 63 then inr ErrRange else inl (- un))
          else (if un >=? 2 ^ 63 then inr ErrRange else inl un)
      end
  end.

(** [strconv.Itoa]. *)
Definition Itoa (n : Z) : string := pretty n.

End strconv.

Module fmt.

(** A byte that, right after a [%], is read as the verb itself: it is
    neither a flag, nor the start of a width, a precision or an argument
    index, nor a byte of a multi-byte character. *)
Definition plainVerb (c : ascii) : bool :=
  let n := N_of_ascii c in
  ((n <? 128) && negb (existsb (N.eqb n)
     [35; 48; 43; 45; 32; 91; 42; 46; 49; 50; 51; 52; 53; 54; 55; 56; 57]))%N.

(** The text [fmt.Sprintf(format)] produces when it is given no operands:
    text outside verbs is copied, [%%] is a percent sign, a verb finds no
    operand and is rendered [%!c(MISSING)], and a [%] that ends the format
    is rendered [%!(NOVERB)].  Formats that use flags, widths, precisions
    or argument indexes are outside the model: [None]. *)
Fixpoint Sprintf0 (format : string) : option string :=
  match format with
  | EmptyString => Some EmptyString
  | String "%" EmptyString => Some "%!(NOVERB)"
  | String "%" (String c rest) =>
      if Ascii.eqb c "%" then String "%" <$> Sprintf0 rest
      else if plainVerb c
        then (λ t, "%!" +:+ String c "(MISSING)" +:+ t) <$> Sprintf0 rest
        else None
  | String c rest => String c <$> Sprintf0 rest
  end.

(** No byte of the text is a percent sign. *)
Fixpoint noPercent (s : string) : bool :=
  match s with
  | EmptyString => true
  | String c rest => negb (Ascii.eqb c "%") && noPercent rest
  end.

End fmt.

(** * Package cluster *)

Module cluster.

Import util.

(** ** The objects of the cluster API that the package reads *)

(** [coreV1.PodPhase]. *)
Inductive PodPhase := PodPending | PodRunning | PodSucceeded | PodFailed | PodUnknown.

#[export] Instance PodPhase_eq_dec : EqDecision PodPhase.
Proof. solve_decision. Defined.

(** The fields of [coreV1.Pod] the package looks at.  [Annotations] is a Go
    map, hence a reference into the heap; [DeletionTimestamp] is a pointer
    that is [nil] unless the pod is being deleted. *)
Record Pod := mkPod {
  Name : string;
  Namespace : string;
  Annotations : mapref;
  Phase : PodPhase;
  DeletionTimestamp : option Z
}.

(** An operand handed to a formatting verb. *)
Inductive any := AString (s : string) | ALabels (labels : gomap).

(** [metav1.StatusReason], as far as the store's failures are told apart. *)
Inductive StatusReason := StatusReasonUnknown | StatusReasonNotFound | StatusReasonConflict.

(** The values of Go's [error] interface that occur: a status error of the
    API server, a parse error of [strconv], the value [fmt.Errorf] builds
    from a format and its operands, and any other error with its text. *)
Inductive error :=
| StatusError (reason : StatusReason) (message : string)
| NumError (Func Num : string) (Err : strconv.AtoiError)
| Errorf (format : string) (a : list any)
| ErrorString (s : string).

(** [apierrors.IsNotFound]. *)
Definition IsNotFound (e : error) : bool :=
  match e with StatusError StatusReasonNotFound _ => true | _ => false end.

(** [err.Error()] for a status error, for any other error with its text and
    for an error that [fmt.Errorf] built from a format alone; rendering
    operands and [strconv]'s quoting are not modelled. *)
Definition Error (e : error) : option string :=
  match e with
  | StatusError _ message => Some message
  | ErrorString s => Some s
  | Errorf format [] => fmt.Sprintf0 format
  | Errorf _ (_ :: _) => None
  | NumError _ _ _ => None
  end.

(** ** The world the package runs in *)

(** The heap of this process and the state of the remote store. *)
Record World (S : Type) := mkWorld { heap : Heap; store : S }.
Arguments mkWorld {S} heap store.
Arguments heap {S} w.
Arguments store {S} w.

(** What [*Kubernetes] gives access to: the typed client ([Get], [List] and
    [Update] on pods of a namespace) and the exec transport, which fills the
    stdout and stderr buffers and reports its own error.  [elapse] is what
    happens to the world while the process sleeps. *)
Class Kubernetes (S : Type) := {
  Get (namespace name : string) : World S → (Pod + error) * World S;
  List (namespace : string) (selector : gomap) : World S → (list Pod + error) * World S;
  Update (namespace : string) (pod : Pod) : World S → (Pod + error) * World S;
  Stream (containerName podName namespace : string) (cmd : list string) :
    World S → (string * string * option error) * World S;
  elapse (seconds : Z) : World S → World S
}.

(** Functions and constants of the repository that this file calls and that
    are declared in other files: [util.KtRefCount], [util.RemoveColor],
    [util.ExtractErrorMessage], [filterRunningPods] and [decreaseRef]. *)
Class Helpers := {
  KtRefCount : string;
  RemoveColor : string → string;
  ExtractErrorMessage : string → string;
  filterRunningPods : list Pod → list Pod;
  decreaseRef : string → string * option error
}.

(** A call on the outside world, with what it answered. *)
Inductive Call :=
| PodsGet (name namespace : string) (r : Pod + error)
| PodsList (labels : gomap) (namespace : string) (r : list Pod + error)
| PodsUpdate (pod : Pod) (r : Pod + error)
| ExecStream (containerName podName namespace : string) (cmd : list string)
| TimeSleep (seconds : Z).

(** How a computation ends: with a value, with a Go panic, or cut short
    because the recursion budget of the model ran out. *)
Inductive Res (A : Type) := Done (a : A) | Panic | OutOfFuel.
Arguments Done {A} a.
Arguments Panic {A}.
Arguments OutOfFuel {A}.

(** A computation: from a world to its end, the world it leaves and the
    calls it made, oldest first. *)
Definition M (S A : Type) : Type := World S → Res A * World S * list Call.

Definition ret {S A} (a : A) : M S A := λ w, (Done a, w, []).

Definition bind {S A B} (c : M S A) (k : A → M S B) : M S B :=
  λ w,
    match c w with
    | (Done a, w1, t1) => let '(r, w2, t2) := k a w1 in (r, w2, (t1 ++ t2)%list)
    | (Panic, w1, t1) => (Panic, w1, t1)
    | (OutOfFuel, w1, t1) => (OutOfFuel, w1, t1)
    end.

Notation "'do' x <- c ; k" := (bind c (λ x, k))
  (at level 10, x name, c at level 100, k at level 200).
Notation "'do' ' p <- c ; k" := (bind c (λ x, match x with p => k end))
  (at level 10, p pattern, c at level 100, k at level 200).

Section Package.

Context {S : Type} {K : Kubernetes S} {H : Helpers}.

(** [time.Sleep(seconds * time.Second)]. *)
Definition Sleep (seconds : Z) : M S unit :=
  λ w, (Done tt, elapse seconds w, [TimeSleep seconds]).

(** [m[k]] on the current heap. *)
Definition mapIndex (m : mapref) (k : string) : M S string :=
  λ w, (Done (index m k (heap w)), w, []).

(** [m[k] = v] on the current heap. *)
Definition mapAssign (m : mapref) (k v : string) : M S unit :=
  λ w,
    match assign m k v (heap w) with
    | Some h => (Done tt, mkWorld h (store w), [])
    | None => (Panic, w, [])
    end.

(** The call [util.MapPut(m, k, v)]. *)
Definition callMapPut (m : mapref) (k v : string) : M S unit :=
  λ w,
    match MapPut m k v (heap w) with
    | Some h => (Done tt, mkWorld h (store w), [])
    | None => (Panic, w, [])
    end.

(** [GetPod]. *)
Definition GetPod (name namespace : string) : M S (Pod + error) :=
  λ w, let '(r, w') := Get namespace name w in (Done r, w', [PodsGet name namespace r]).

(** [GetPodsByLabel]: the selector is the label set itself. *)
Definition GetPodsByLabel (labels : gomap) (namespace : string) : M S (list Pod + error) :=
  λ w, let '(r, w') := List namespace labels w in (Done r, w', [PodsList labels namespace r]).

(** [UpdatePod]. *)
Definition UpdatePod (pod : Pod) : M S (Pod + error) :=
  λ w, let '(r, w') := Update (Namespace pod) pod w in (Done r, w', [PodsUpdate pod r]).

(** [execute]: one streamed command; the two buffers and the error. *)
Definition execute (containerName podName namespace : string) (cmd : list string)
  : M S (string * string * option error) :=
  λ w, let '(r, w') := Stream containerName podName namespace cmd w in
       (Done r, w', [ExecStream containerName podName namespace cmd]).

(** [const interval = 6], declared alike in the three waits. *)
Definition interval : Z := 6.

(** [waitPodsReady], with the depth of the recursion bounded by [fuel]. *)
Fixpoint waitPodsReady_fuel (fuel : nat) (labels : gomap) (namespace : string)
    (timeoutSec times : Z) : M S (option (list Pod) * option error) :=
  match fuel with
  | O => λ w, (OutOfFuel, w, [])
  | Datatypes.S fuel =>
      do r <- GetPodsByLabel labels namespace;
      match r with
      | inr err => ret (None, Some err)
      | inl items =>
          if times >? Z.quot timeoutSec interval then
            match items with
            | [] => ret (None, Some (Errorf "pod with label %v not found" [ALabels labels]))
            | pod :: _ => ret (None, Some (Errorf "pod %s failed to start" [AString (Name pod)]))
            end
          else
            let runningPods := filterRunningPods items in
            if (0 <? length runningPods)%nat then ret (Some runningPods, None)
            else
              do _ <- Sleep 1;
              waitPodsReady_fuel fuel labels namespace timeoutSec (times + 1)
      end
  end.

(** The calls left when the counter is [times] and the loop stops once it
    exceeds [bound], counting the call that finds it exceeded. *)
Definition budget (bound times : Z) : nat := Datatypes.S (Z.to_nat (bound - times + 1)).

Definition waitPodsReady (labels : gomap) (namespace : string) (timeoutSec times : Z)
  : M S (option (list Pod) * option error) :=
  waitPodsReady_fuel (budget (Z.quot timeoutSec interval) times) labels namespace timeoutSec times.

(** [waitPodReady], with the depth of the recursion bounded by [fuel]. *)
Fixpoint waitPodReady_fuel (fuel : nat) (name namespace : string)
    (timeoutSec times : Z) : M S (option Pod * option error) :=
  match fuel with
  | O => λ w, (OutOfFuel, w, [])
  | Datatypes.S fuel =>
      if times >? Z.quot timeoutSec interval then
        ret (None, Some (Errorf "pod %s failed to start" [AString name]))
      else
        do r <- GetPod name namespace;
        match r with
        | inr err => ret (None, Some err)
        | inl pod =>
            if negb (bool_decide (Phase pod = PodRunning)) then
              do _ <- Sleep interval;
              waitPodReady_fuel fuel name namespace timeoutSec (times + 1)
            else ret (Some pod, None)
        end
  end.

Definition waitPodReady (name namespace : string) (timeoutSec times : Z)
  : M S (option Pod * option error) :=
  waitPodReady_fuel (budget (Z.quot timeoutSec interval) times) name namespace timeoutSec times.

(** [waitPodTerminate], with the depth of the recursion bounded by [fuel]. *)
Fixpoint waitPodTerminate_fuel (fuel : nat) (name namespace : string) (times : Z)
  : M S (option Pod * option error) :=
  match fuel with
  | O => λ w, (OutOfFuel, w, [])
  | Datatypes.S fuel =>
      if times >? 10 then
        ret (None, Some (Errorf "pod '%s' still terminating, please try again later"
                                [AString name]))
      else
        do _ <- Sleep interval;
        do r <- GetPod name namespace;
        match r with
        | inr err => ret (None, Some err)
        | inl routerPod =>
            match DeletionTimestamp routerPod with
            | Some _ => waitPodTerminate_fuel fuel name namespace (times + 1)
            | None => ret (Some routerPod, None)
            end
        end
  end.

Definition waitPodTerminate (name namespace : string) (times : Z)
  : M S (option Pod * option error) :=
  waitPodTerminate_fuel (budget 10 times) name namespace times.

(** [WaitPodsReady], [WaitPodReady] and [WaitPodTerminate] start the counter
    at zero. *)
Definition WaitPodsReady (labels : gomap) (namespace : string) (timeoutSec : Z) :=
  waitPodsReady labels namespace timeoutSec 0.

Definition WaitPodReady (name namespace : string) (timeoutSec : Z) :=
  waitPodReady name namespace timeoutSec 0.

Definition WaitPodTerminate (name namespace : string) :=
  waitPodTerminate name namespace 0.

(** [ExecInPod]: both buffers are trimmed and then stripped of colour, and a
    failure text found in the cleaned stderr becomes the error when the
    transport reported none.  The text is handed to [fmt.Errorf] as its
    format. *)
Definition ExecInPod (containerName podName namespace : string) (cmd : list string)
  : M S (string * string * option error) :=
  do '(stdout, stderr, err) <- execute containerName podName namespace cmd;
  let stdoutMsg := RemoveColor (strings.TrimSpace stdout) in
  let stderrMsg := RemoveColor (strings.TrimSpace stderr) in
  let rawErrMsg := ExtractErrorMessage stderrMsg in
  let err :=
    match err with
    | None => if negb (String.eqb rawErrMsg "") then Some (Errorf rawErrMsg []) else err
    | Some _ => err
    end in
  ret (stdoutMsg, stderrMsg, err).

(** 64-bit wrap-around of [count + 1]. *)
Definition wrap64 (n : Z) : Z := (n + 2 ^ 63) mod 2 ^ 64 - 2 ^ 63.

(** [IncreasePodRef]: the parse error is handed back to the caller. *)
Definition IncreasePodRef (name namespace : string) : M S (option error) :=
  do r <- GetPod name namespace;
  match r with
  | inr err => ret (Some err)
  | inl pod =>
      let annotations := Annotations pod in
      do value <- mapIndex annotations KtRefCount;
      match strconv.Atoi value with
      | inr e => ret (Some (NumError "Atoi" value e))
      | inl count =>
          do _ <- mapAssign (Annotations pod) KtRefCount (strconv.Itoa (wrap64 (count + 1)));
          do r <- UpdatePod pod;
          ret (match r with inr err => Some err | inl _ => None end)
      end
  end.

(** [DecreasePodRef].  The results are named [cleanup] and [err]; a bare
    [return] hands back what they hold at that point.  [err] is assigned by
    [GetPod] and by [UpdatePod] only: the error of [decreaseRef] is kept in
    the local [err2]. *)
Definition DecreasePodRef (name namespace : string) : M S (bool * option error) :=
  let cleanup := false in
  do r <- GetPod name namespace;
  match r with
  | inr err => ret (cleanup, Some err)
  | inl pod =>
      let err : option error := None in
      do refCount <- mapIndex (Annotations pod) KtRefCount;
      if String.eqb refCount "1" then ret (true, None)
      else
        let '(count, err2) := decreaseRef refCount in
        match err2 with
        | Some _ => ret (cleanup, err)
        | None =>
            do _ <- callMapPut (Annotations pod) KtRefCount count;
            do r <- UpdatePod pod;
            ret (cleanup, match r with inr err => Some err | inl _ => None end)
        end
  end.

End Package.

(** ** Observations on a run *)

Definition result {S A} (x : Res A * World S * list Call) : Res A := x.1.1.
Definition after {S A} (x : Res A * World S * list Call) : World S := x.1.2.
Definition calls {S A} (x : Res A * World S * list Call) : list Call := x.2.

Definition isGet (c : Call) : bool := match c with PodsGet _ _ _ => true | _ => false end.
Definition isList (c : Call) : bool := match c with PodsList _ _ _ => true | _ => false end.
Definition isUpdate (c : Call) : bool := match c with PodsUpdate _ _ => true | _ => false end.

(** How many calls of a kind a run made. *)
Definition count (kind : Call → bool) (t : list Call) : nat :=
  length (List.filter kind t).
Arguments count : simpl never.

(** The lengths of the sleeps of a run, oldest first. *)
Definition sleeps (t : list Call) : list Z :=
  omap (λ c, match c with TimeSleep d => Some d | _ => None end) t.

(** The answers to the list calls of a run, oldest first. *)
Definition listed (t : list Call) : list (list Pod + error) :=
  omap (λ c, match c with PodsList _ _ r => Some r | _ => None end) t.

(** The answers to the fetches of a run, oldest first. *)
Definition fetched (t : list Call) : list (Pod + error) :=
  omap (λ c, match c with PodsGet _ _ r => Some r | _ => None end) t.

(** A fetch that found the pod and found it short of [Running]. *)
Definition notYetRunning (r : Pod + error) : bool :=
  match r with
  | inl pod => negb (bool_decide (Phase pod = PodRunning))
  | inr _ => false
  end.

(** A fetch that found the pod and found it marked for deletion. *)
Definition terminating (r : Pod + error) : bool :=
  match r with
  | inl pod => match DeletionTimestamp pod with Some _ => true | None => false end
  | inr _ => false
  end.

(** A listing that went through and held no pod that [filterRunningPods]
    keeps. *)
Definition nothingReady `{Helpers} (r : list Pod + error) : bool :=
  match r with
  | inl items => (length (filterRunningPods items) =? 0)%nat
  | inr _ => false
  end.

(** The error of the set wait when the listing [items] finds the counter
    past its bound. *)
Definition exhausted (labels : gomap) (items : list Pod) : error :=
  match items with
  | [] => Errorf "pod with label %v not found" [ALabels labels]
  | pod :: _ => Errorf "pod %s failed to start" [AString (Name pod)]
  end.

(** The run is a sequence of fetches of the pod with a sleep of [d] seconds
    after each of them, save perhaps the last: a sleep follows a fetch, and
    every fetch but the first follows a sleep. *)
Fixpoint fetchThenSleep (d : Z) (name namespace : string) (t : list Call) : bool :=
  match t with
  | [] => true
  | PodsGet name' namespace' _ :: rest =>
      String.eqb name' name && String.eqb namespace' namespace
      && match rest with
         | [] => true
         | TimeSleep d' :: rest' => (d' =? d) && fetchThenSleep d name namespace rest'
         | _ => false
         end
  | _ => false
  end.

(** The seconds a run spent asleep. *)
Definition slept (t : list Call) : Z := foldr Z.add 0 (sleeps t).
Arguments slept : simpl never.

(** The run is a sequence of attempts, each a sleep of [d] seconds followed
    by one fetch of the pod. *)
Fixpoint sleepThenFetch (d : Z) (name namespace : string) (t : list Call) : bool :=
  match t with
  | [] => true
  | TimeSleep d' :: PodsGet name' namespace' _ :: t' =>
      (d' =? d) && String.eqb name' name && String.eqb namespace' namespace
      && sleepThenFetch d name namespace t'
  | _ => false
  end.

End cluster.

(** * Stores and helpers to run the package against *)

Module fixtures.

Import util cluster.

(** A store that answers its n-th request from a script: [gets] for a
    fetch, [lists] for a listing.  An update is accepted as sent, the exec
    transport always delivers [out], and sleeping changes nothing. *)
Definition scripted (gets : nat → Pod + error) (lists : nat → list Pod + error)
    (out : string * string * option error) : Kubernetes nat := {|
  Get _ _ w := (gets (store w), mkWorld (heap w) (Datatypes.S (store w)));
  List _ _ w := (lists (store w), mkWorld (heap w) (Datatypes.S (store w)));
  Update _ pod w := (inl pod, w);
  Stream _ _ _ _ w := (out, w);
  elapse _ w := w
|}.

(** Modelled from the spec: [filterRunningPods] is declared in a file that
    is not part of the development; the spec has the set wait "filter to
    those in Running phase". *)
Definition runningOnly (items : list Pod) : list Pod :=
  filter (λ pod, Phase pod = PodRunning) items.

(** Modelled from the spec: [decreaseRef] is declared in a file that is not
    part of the development; the spec has the decrement "parse, decrement,
    write back" and treats a count that is not a number, or is zero, as an
    error. *)
Definition parseAndDecrease (refCount : string) : string * option error :=
  match strconv.Atoi refCount with
  | inr e => ("", Some (NumError "Atoi" refCount e))
  | inl n =>
      if n =? 0 then ("", Some (Errorf "invalid ref count %s" [AString refCount]))
      else (strconv.Itoa (n - 1), None)
  end.

(** Modelled from the spec: [util.RemoveColor] is declared in a file that is
    not part of the development; the spec has it "strip ANSI/color escape
    sequences".  A sequence is taken to run from an escape byte to the next
    [m]. *)
Fixpoint stripFrom (inside : bool) (s : string) : string :=
  match s with
  | EmptyString => EmptyString
  | String c rest =>
      if inside then stripFrom (negb (Ascii.eqb c "m")) rest
      else if (N_of_ascii c =? 27)%N then stripFrom true rest
      else String c (stripFrom false rest)
  end.

Definition stripColor (s : string) : string := stripFrom false s.

Fixpoint lineOf (s : string) : string :=
  match s with
  | EmptyString => EmptyString
  | String c rest => if (N_of_ascii c =? 10)%N then EmptyString else String c (lineOf rest)
  end.

Fixpoint afterMarker (marker s : string) : option string :=
  if String.prefix marker s
  then Some (String.substring (String.length marker) (String.length s) s)
  else match s with
       | EmptyString => None
       | String _ rest => afterMarker marker rest
       end.

(** Modelled from the spec: [util.ExtractErrorMessage] is declared in a file
    that is not part of the development; the spec has it find "an embedded
    structured error message" in the stderr text and says no more.  The
    message is taken to be the rest of the line after the first [error: ],
    and the empty string stands for none. *)
Definition embeddedError (stderr : string) : string :=
  match afterMarker "error: " stderr with
  | Some rest => lineOf rest
  | None => EmptyString
  end.

(** The helpers as the spec describes them.  The annotation key is a
    constant of package [util] that is not part of the development. *)
Definition helpers : Helpers := {|
  KtRefCount := "kt-ref-count";
  RemoveColor := stripColor;
  ExtractErrorMessage := embeddedError;
  filterRunningPods := runningOnly;
  decreaseRef := parseAndDecrease
|}.

(** Pods and store answers used below. *)
Definition pod (name : string) (phase : PodPhase) (deleting : option Z) : Pod :=
  mkPod name "default" None phase deleting.

Definition notFound : error :=
  StatusError StatusReasonNotFound "pods shadow not found".

Definition idle : string * string * option error := ("", "", None).

(** The pod never gets past [Pending]. *)
Definition stuckPending : Kubernetes nat :=
  scripted (λ _, inl (pod "shadow" PodPending None)) (λ _, inl []) idle.

(** The pod is [Pending] at the first two fetches and [Running] from the
    third on. *)
Definition startsAtThird : Kubernetes nat :=
  scripted (λ n, inl (pod "shadow" (if (n <? 2)%nat then PodPending else PodRunning) None))
           (λ _, inl []) idle.

(** The pod stays marked for deletion for ever. *)
Definition stuckTerminating : Kubernetes nat :=
  scripted (λ _, inl (pod "shadow" PodRunning (Some 1700000000))) (λ _, inl []) idle.

(** The pod is marked for deletion at the first two fetches and gone at the
    third. *)
Definition goneAtThird : Kubernetes nat :=
  scripted (λ n, if (n <? 2)%nat then inl (pod "shadow" PodRunning (Some 1700000000))
                 else inr notFound)
           (λ _, inl []) idle.

(** The selector matches nothing at the first listing and one pending pod
    from the second listing on. *)
Definition lateArrival : Kubernetes nat :=
  scripted (λ _, inr notFound)
           (λ n, if (n <? 1)%nat then inl [] else inl [pod "shadow" PodPending None]) idle.

(** The selector never matches anything. *)
Definition nothingListed : Kubernetes nat :=
  scripted (λ _, inr notFound) (λ _, inl []) idle.

(** The selector matches a pending and a running pod. *)
Definition oneOfTwoRunning : Kubernetes nat :=
  scripted (λ _, inl (pod "shadow" PodRunning None))
           (λ _, inl [pod "other" PodPending None; pod "shadow" PodRunning None]) idle.

(** A pod whose annotations are the map object at address 1, and a world
    whose heap holds that object with the given ref count. *)
Definition counted : Pod := mkPod "shadow" "default" (Some 1%positive) PodRunning None.

Definition countedStore : Kubernetes nat :=
  scripted (λ _, inl counted) (λ _, inl [counted]) idle.

Definition withCount (refCount : string) : World nat :=
  mkWorld {[ 1%positive := {[ "kt-ref-count" := refCount ]} ]} 0%nat.

Definition start : World nat := mkWorld ∅ 0%nat.

(** A transport that reports no error and whose stderr is, in colour and
    between white space, a log line with a failure text. *)
Definition esc : string := String (ascii_of_N 27) EmptyString.
Definition newline : string := String (ascii_of_N 10) EmptyString.

Definition failingCommand : Kubernetes nat :=
  scripted (λ _, inr notFound) (λ _, inl [])
    ("  total 0" +:+ newline,
     "  " +:+ esc +:+ "[31m" +:+ "1:02PM ERR exec failed error: usage 100%"
          +:+ esc +:+ "[0m" +:+ newline,
     None).


(** A heap with two maps that share the key [b]. *)
Definition twoMaps : Heap :=
  {[ 1%positive := {[ "a" := "1"; "b" := "2" ]}; 2%positive := {[ "b" := "3" ]} ]}.

(** A heap with a map whose only value is empty and a map with one entry
    under another key. *)
Definition emptyValued : Heap :=
  {[ 1%positive := {[ "a" := "" ]}; 2%positive := {[ "b" := "x" ]} ]}.

(** A transport whose stdout has its white space inside the colour
    sequences. *)
Definition colouredOutput : Kubernetes nat :=
  scripted (λ _, inr notFound) (λ _, inl [])
    (esc +:+ "[32m" +:+ " ready " +:+ esc +:+ "[0m", "", None).

End fixtures.
(** * Properties *)

Import util cluster fixtures.

(** ** Bookkeeping on runs *)

Lemma count_nil (kind : Call → bool) : count kind [] = 0%nat.
Proof. done. Qed.

Lemma count_cons (kind : Call → bool) (c : Call) (t : list Call) :
  count kind (c :: t) = ((if kind c then 1 else 0) + count kind t)%nat.
Proof. unfold count. cbn. by destruct (kind c). Qed.

Lemma budget_step (bound times : Z) (fuel : nat) :
  times <= bound → (budget bound times ≤ Datatypes.S fuel)%nat →
  (budget bound (times + 1) ≤ fuel)%nat.
Proof. unfold budget. lia. Qed.

(** Uses up a hypothesis that an answer occurs among no answers, or in a
    list whose head it cannot be. *)
Ltac membership :=
  match goal with
  | Hm : _ ∈ [] |- _ => by apply elem_of_nil in Hm
  | Hm : _ ∈ [_] |- _ =>
      apply list_elem_of_singleton in Hm; first [done | by injection Hm as ->]
  | Hm : inr _ ∈ inl _ :: _ |- _ => apply elem_of_cons in Hm as [?|Hm]; [done|]
  end.

(** Closes the routine parts of a statement about one step of a run. *)
Ltac routine :=
  rewrite ?count_cons, ?count_nil; cbn;
  repeat split; eauto; try lia; try done; try (by intros ? [=]);
  try membership.

Section Facts.

Context {S : Type} {K : Kubernetes S} {H : Helpers}.

(** ** [waitPodReady] *)

(** One call of [waitPodReady], case by case. *)
Lemma waitPodReady_over (fuel : nat) (name namespace : string) (timeoutSec times : Z)
    (w : World S) :
  times > Z.quot timeoutSec interval →
  waitPodReady_fuel (Datatypes.S fuel) name namespace timeoutSec times w
  = (Done (None, Some (Errorf "pod %s failed to start" [AString name])), w, []).
Proof.
  intros Hover. cbn [waitPodReady_fuel].
  destruct (Z.gtb_spec times (Z.quot timeoutSec interval)); [done|lia].
Qed.

Lemma waitPodReady_error (fuel : nat) (name namespace : string) (timeoutSec times : Z)
    (w w1 : World S) (err : error) :
  times <= Z.quot timeoutSec interval →
  Get namespace name w = (inr err, w1) →
  waitPodReady_fuel (Datatypes.S fuel) name namespace timeoutSec times w
  = (Done (None, Some err), w1, [PodsGet name namespace (inr err)]).
Proof.
  intros Hin Hget. cbn [waitPodReady_fuel].
  destruct (Z.gtb_spec times (Z.quot timeoutSec interval)); [lia|].
  unfold bind, GetPod. by rewrite Hget.
Qed.

Lemma waitPodReady_ready (fuel : nat) (name namespace : string) (timeoutSec times : Z)
    (w w1 : World S) (pod : Pod) :
  times <= Z.quot timeoutSec interval →
  Get namespace name w = (inl pod, w1) →
  Phase pod = PodRunning →
  waitPodReady_fuel (Datatypes.S fuel) name namespace timeoutSec times w
  = (Done (Some pod, None), w1, [PodsGet name namespace (inl pod)]).
Proof.
  intros Hin Hget Hphase. cbn [waitPodReady_fuel].
  destruct (Z.gtb_spec times (Z.quot timeoutSec interval)); [lia|].
  unfold bind, GetPod. rewrite Hget.
  by rewrite (bool_decide_eq_true_2 _ Hphase).
Qed.

Lemma waitPodReady_retry (fuel : nat) (name namespace : string) (timeoutSec times : Z)
    (w w1 : World S) (pod : Pod) :
  times <= Z.quot timeoutSec interval →
  Get namespace name w = (inl pod, w1) →
  Phase pod ≠ PodRunning →
  waitPodReady_fuel (Datatypes.S fuel) name namespace timeoutSec times w
  = let x := waitPodReady_fuel fuel name namespace timeoutSec (times + 1)
               (elapse interval w1) in
    (result x, after x,
     PodsGet name namespace (inl pod) :: TimeSleep interval :: calls x).
Proof.
  intros Hin Hget Hphase. cbn [waitPodReady_fuel].
  destruct (Z.gtb_spec times (Z.quot timeoutSec interval)); [lia|].
  unfold bind, GetPod, Sleep. rewrite Hget.
  rewrite (bool_decide_eq_false_2 _ Hphase). cbn.
  by destruct (waitPodReady_fuel fuel name namespace timeoutSec (times + 1)
                 (elapse interval w1)) as [[r w2] t].
Qed.

(** Everything the single-pod wait guarantees, for any starting counter:
    it ends, it fetches no more often than the counter allows, it sleeps
    [interval] seconds at a time, it reports success on a running pod only,
    and when every fetch finds the pod short of [Running] it spends the
    whole allowance and fails naming the pod. *)
Lemma waitPodReady_fuel_run (fuel : nat) (name namespace : string) (timeoutSec : Z) :
  ∀ (times : Z) (w : World S),
    (budget (Z.quot timeoutSec interval) times ≤ fuel)%nat →
    let x := waitPodReady_fuel fuel name namespace timeoutSec times w in
    (∃ v, result x = Done v)
    ∧ (count isGet (calls x) ≤ Z.to_nat (Z.quot timeoutSec interval - times + 1))%nat
    ∧ Forall (eq interval) (sleeps (calls x))
    ∧ (∀ p, result x = Done (p, None) → ∃ pod, p = Some pod ∧ Phase pod = PodRunning)
    ∧ (forallb notYetRunning (fetched (calls x)) = true →
       result x = Done (None, Some (Errorf "pod %s failed to start" [AString name]))
       ∧ count isGet (calls x) = Z.to_nat (Z.quot timeoutSec interval - times + 1)).
Proof.
  induction fuel as [|fuel IH]; intros times w Hfuel.
  { unfold budget in Hfuel. lia. }
  destruct (Z_gt_le_dec times (Z.quot timeoutSec interval)) as [Hover|Hin].
  { rewrite waitPodReady_over by done. cbn. routine. }
  destruct (Get namespace name w) as [[pod|err] w1] eqn:Hget.
  2: { rewrite (waitPodReady_error _ _ _ _ _ _ _ _ Hin Hget). cbn. routine. }
  destruct (decide (Phase pod = PodRunning)) as [Hphase|Hphase].
  - rewrite (waitPodReady_ready _ _ _ _ _ _ _ _ Hin Hget Hphase). cbn.
    rewrite (bool_decide_eq_true_2 _ Hphase). routine.
    intros p [= <-]. eauto.
  - rewrite (waitPodReady_retry _ _ _ _ _ _ _ _ Hin Hget Hphase).
    specialize (IH (times + 1) (elapse interval w1) (budget_step _ _ _ Hin Hfuel)).
    cbn zeta in *.
    destruct IH as (Hend & Hcount & Hsleep & Hok & Hall).
    unfold result, calls in *. cbn.
    rewrite (bool_decide_eq_false_2 _ Hphase). cbn.
    routine.
    + by apply Hall.
    + destruct Hall as [_ ->]; [done|lia].
Qed.

(** ** [waitPodTerminate] *)

Lemma waitPodTerminate_over (fuel : nat) (name namespace : string) (times : Z)
    (w : World S) :
  times > 10 →
  waitPodTerminate_fuel (Datatypes.S fuel) name namespace times w
  = (Done (None, Some (Errorf "pod '%s' still terminating, please try again later"
                              [AString name])), w, []).
Proof.
  intros Hover. cbn [waitPodTerminate_fuel].
  destruct (Z.gtb_spec times 10); [done|lia].
Qed.

Lemma waitPodTerminate_error (fuel : nat) (name namespace : string) (times : Z)
    (w w1 : World S) (err : error) :
  times <= 10 →
  Get namespace name (elapse interval w) = (inr err, w1) →
  waitPodTerminate_fuel (Datatypes.S fuel) name namespace times w
  = (Done (None, Some err), w1,
     [TimeSleep interval; PodsGet name namespace (inr err)]).
Proof.
  intros Hin Hget. cbn [waitPodTerminate_fuel].
  destruct (Z.gtb_spec times 10); [lia|].
  unfold bind, GetPod, Sleep. by rewrite Hget.
Qed.

Lemma waitPodTerminate_present (fuel : nat) (name namespace : string) (times : Z)
    (w w1 : World S) (pod : Pod) :
  times <= 10 →
  Get namespace name (elapse interval w) = (inl pod, w1) →
  DeletionTimestamp pod = None →
  waitPodTerminate_fuel (Datatypes.S fuel) name namespace times w
  = (Done (Some pod, None), w1,
     [TimeSleep interval; PodsGet name namespace (inl pod)]).
Proof.
  intros Hin Hget Hdel. cbn [waitPodTerminate_fuel].
  destruct (Z.gtb_spec times 10); [lia|].
  unfold bind, GetPod, Sleep. by rewrite Hget, Hdel.
Qed.

Lemma waitPodTerminate_retry (fuel : nat) (name namespace : string) (times : Z)
    (w w1 : World S) (pod : Pod) (ts : Z) :
  times <= 10 →
  Get namespace name (elapse interval w) = (inl pod, w1) →
  DeletionTimestamp pod = Some ts →
  waitPodTerminate_fuel (Datatypes.S fuel) name namespace times w
  = let x := waitPodTerminate_fuel fuel name namespace (times + 1) w1 in
    (result x, after x,
     TimeSleep interval :: PodsGet name namespace (inl pod) :: calls x).
Proof.
  intros Hin Hget Hdel. cbn [waitPodTerminate_fuel].
  destruct (Z.gtb_spec times 10); [lia|].
  unfold bind, GetPod, Sleep. rewrite Hget, Hdel. cbn.
  by destruct (waitPodTerminate_fuel fuel name namespace (times + 1) w1) as [[r w2] t].
Qed.

(** Everything the termination wait guarantees, for any starting counter:
    it ends; its calls are attempts that sleep [interval] seconds and then
    fetch; there are no more attempts than the counter allows below its cap;
    a fetch that fails ends the wait with that very error; a pod is handed
    back without error only when it carries no deletion timestamp; and when
    every fetch finds the pod marked for deletion the wait spends the whole
    allowance and fails naming the pod. *)
Lemma waitPodTerminate_fuel_run (fuel : nat) (name namespace : string) :
  ∀ (times : Z) (w : World S),
    (budget 10 times ≤ fuel)%nat →
    let x := waitPodTerminate_fuel fuel name namespace times w in
    (∃ v, result x = Done v)
    ∧ sleepThenFetch interval name namespace (calls x) = true
    ∧ Forall (eq interval) (sleeps (calls x))
    ∧ (count isGet (calls x) ≤ Z.to_nat (10 - times + 1))%nat
    ∧ (∀ err, inr err ∈ fetched (calls x) →
         result x = Done (None, Some err) ∧ last (fetched (calls x)) = Some (inr err))
    ∧ (∀ p, result x = Done (p, None) →
         ∃ pod, p = Some pod ∧ DeletionTimestamp pod = None)
    ∧ (forallb terminating (fetched (calls x)) = true →
       result x = Done (None, Some (Errorf
                    "pod '%s' still terminating, please try again later" [AString name]))
       ∧ count isGet (calls x) = Z.to_nat (10 - times + 1)).
Proof.
  induction fuel as [|fuel IH]; intros times w Hfuel.
  { unfold budget in Hfuel. lia. }
  destruct (Z_gt_le_dec times 10) as [Hover|Hin].
  { rewrite waitPodTerminate_over by done. cbn. routine. }
  destruct (Get namespace name (elapse interval w)) as [[pod|err] w1] eqn:Hget.
  2: { rewrite (waitPodTerminate_error _ _ _ _ _ _ _ Hin Hget). cbn.
       rewrite !String.eqb_refl. routine. }
  destruct (DeletionTimestamp pod) as [ts|] eqn:Hdel.
  - rewrite (waitPodTerminate_retry _ _ _ _ _ _ _ _ Hin Hget Hdel).
    specialize (IH (times + 1) w1 (budget_step _ _ _ Hin Hfuel)).
    cbn zeta in *.
    destruct IH as (Hend & Hshape & Hsleep & Hcount & Herr & Hok & Hall).
    unfold result, calls in *. cbn.
    rewrite !String.eqb_refl, Hdel. routine.
    + by apply Herr.
    + match goal with Hm : inr ?e ∈ _ |- _ => destruct (Herr e Hm) as [_ Hlast] end.
      unfold fetched in Hlast. by rewrite last_cons, Hlast.
    + by apply Hall.
    + destruct Hall as [_ ->]; [done|lia].
  - rewrite (waitPodTerminate_present _ _ _ _ _ _ _ Hin Hget Hdel). cbn.
    rewrite !String.eqb_refl, Hdel. routine.
    intros p [= <-]. eauto.
Qed.

(** ** [waitPodsReady] *)

Lemma waitPodsReady_error (fuel : nat) (labels : gomap) (namespace : string)
    (timeoutSec times : Z) (w w1 : World S) (err : error) :
  List namespace labels w = (inr err, w1) →
  waitPodsReady_fuel (Datatypes.S fuel) labels namespace timeoutSec times w
  = (Done (None, Some err), w1, [PodsList labels namespace (inr err)]).
Proof.
  intros Hlist. cbn [waitPodsReady_fuel]. unfold bind, GetPodsByLabel. by rewrite Hlist.
Qed.

Lemma waitPodsReady_over (fuel : nat) (labels : gomap) (namespace : string)
    (timeoutSec times : Z) (w w1 : World S) (items : list Pod) :
  List namespace labels w = (inl items, w1) →
  times > Z.quot timeoutSec interval →
  waitPodsReady_fuel (Datatypes.S fuel) labels namespace timeoutSec times w
  = (Done (None, Some (exhausted labels items)), w1,
     [PodsList labels namespace (inl items)]).
Proof.
  intros Hlist Hover. cbn [waitPodsReady_fuel]. unfold bind, GetPodsByLabel.
  rewrite Hlist.
  destruct (Z.gtb_spec times (Z.quot timeoutSec interval)); [|lia].
  by destruct items.
Qed.

Lemma waitPodsReady_ready (fuel : nat) (labels : gomap) (namespace : string)
    (timeoutSec times : Z) (w w1 : World S) (items : list Pod) :
  List namespace labels w = (inl items, w1) →
  times <= Z.quot timeoutSec interval →
  filterRunningPods items ≠ [] →
  waitPodsReady_fuel (Datatypes.S fuel) labels namespace timeoutSec times w
  = (Done (Some (filterRunningPods items), None), w1,
     [PodsList labels namespace (inl items)]).
Proof.
  intros Hlist Hin Hsome. cbn [waitPodsReady_fuel]. unfold bind, GetPodsByLabel.
  rewrite Hlist.
  destruct (Z.gtb_spec times (Z.quot timeoutSec interval)); [lia|].
  by destruct (filterRunningPods items).
Qed.

Lemma waitPodsReady_retry (fuel : nat) (labels : gomap) (namespace : string)
    (timeoutSec times : Z) (w w1 : World S) (items : list Pod) :
  List namespace labels w = (inl items, w1) →
  times <= Z.quot timeoutSec interval →
  filterRunningPods items = [] →
  waitPodsReady_fuel (Datatypes.S fuel) labels namespace timeoutSec times w
  = let x := waitPodsReady_fuel fuel labels namespace timeoutSec (times + 1)
               (elapse 1 w1) in
    (result x, after x,
     PodsList labels namespace (inl items) :: TimeSleep 1 :: calls x).
Proof.
  intros Hlist Hin Hnone. cbn [waitPodsReady_fuel]. unfold bind, GetPodsByLabel, Sleep.
  rewrite Hlist.
  destruct (Z.gtb_spec times (Z.quot timeoutSec interval)); [lia|].
  rewrite Hnone. cbn.
  by destruct (waitPodsReady_fuel fuel labels namespace timeoutSec (times + 1)
                 (elapse 1 w1)) as [[r w2] t].
Qed.

(** Everything the set wait guarantees, for any starting counter: it ends;
    it lists at most once more than the counter allows; it hands back,
    without error, only a non-empty result of [filterRunningPods] on a
    listing it made; and when every listing goes through with nothing ready
    it spends the whole allowance and fails with the error that the last
    listing determines. *)
Lemma waitPodsReady_fuel_run (fuel : nat) (labels : gomap) (namespace : string)
    (timeoutSec : Z) :
  ∀ (times : Z) (w : World S),
    (budget (Z.quot timeoutSec interval) times ≤ fuel)%nat →
    let x := waitPodsReady_fuel fuel labels namespace timeoutSec times w in
    (∃ v, result x = Done v)
    ∧ (count isList (calls x)
       ≤ Z.to_nat (Z.quot timeoutSec interval - times + 1) + 1)%nat
    ∧ (∀ ps, result x = Done (ps, None) →
         ∃ items, inl items ∈ listed (calls x)
                  ∧ ps = Some (filterRunningPods items)
                  ∧ filterRunningPods items ≠ [])
    ∧ (forallb nothingReady (listed (calls x)) = true →
       ∃ items, last (listed (calls x)) = Some (inl items)
                ∧ result x = Done (None, Some (exhausted labels items))
                ∧ count isList (calls x)
                  = (Z.to_nat (Z.quot timeoutSec interval - times + 1) + 1)%nat).
Proof.
  induction fuel as [|fuel IH]; intros times w Hfuel.
  { unfold budget in Hfuel. lia. }
  destruct (List namespace labels w) as [[items|err] w1] eqn:Hlist.
  2: { rewrite (waitPodsReady_error _ _ _ _ _ _ _ _ Hlist). cbn. routine. }
  destruct (Z_gt_le_dec times (Z.quot timeoutSec interval)) as [Hover|Hin].
  { rewrite (waitPodsReady_over _ _ _ _ _ _ _ _ Hlist Hover). cbn. routine.
    intros _. exists items. routine. }
  destruct (filterRunningPods items) as [|pod ready] eqn:Hready.
  - rewrite (waitPodsReady_retry _ _ _ _ _ _ _ _ Hlist Hin Hready).
    specialize (IH (times + 1) (elapse 1 w1) (budget_step _ _ _ Hin Hfuel)).
    cbn zeta in *.
    destruct IH as (Hend & Hcount & Hok & Hall).
    unfold result, calls in *. cbn. rewrite Hready. routine.
    + intros ps Hps. destruct (Hok ps Hps) as (items' & Hin' & Heq).
      exists items'. split; [by apply list_elem_of_further|done].
    + intros Hf. destruct (Hall Hf) as (items' & Hlast & Hres & Hn).
      exists items'. unfold listed in Hlast. rewrite last_cons, Hlast. routine.
  - assert (Hsome : filterRunningPods items ≠ []) by by rewrite Hready.
    rewrite (waitPodsReady_ready _ _ _ _ _ _ _ _ Hlist Hin Hsome). cbn.
    rewrite Hready. routine.
    intros ps [= <-]. exists items. rewrite Hready. routine.
    apply list_elem_of_singleton. done.
Qed.

(** The calls of the single-pod wait: a fetch, and after every fetch that
    leads to a retry a sleep of [interval] seconds. *)
Lemma waitPodReady_fuel_shape (fuel : nat) (name namespace : string) (timeoutSec : Z) :
  ∀ (times : Z) (w : World S),
    (budget (Z.quot timeoutSec interval) times ≤ fuel)%nat →
    fetchThenSleep interval name namespace
      (calls (waitPodReady_fuel fuel name namespace timeoutSec times w)) = true.
Proof.
  induction fuel as [|fuel IH]; intros times w Hfuel.
  { unfold budget in Hfuel. lia. }
  destruct (Z_gt_le_dec times (Z.quot timeoutSec interval)) as [Hover|Hin].
  { by rewrite waitPodReady_over. }
  destruct (Get namespace name w) as [[pod|err] w1] eqn:Hget.
  2: { rewrite (waitPodReady_error _ _ _ _ _ _ _ _ Hin Hget). cbn.
       by rewrite !String.eqb_refl. }
  destruct (decide (Phase pod = PodRunning)) as [Hphase|Hphase].
  - rewrite (waitPodReady_ready _ _ _ _ _ _ _ _ Hin Hget Hphase). cbn.
    by rewrite !String.eqb_refl.
  - rewrite (waitPodReady_retry _ _ _ _ _ _ _ _ Hin Hget Hphase).
    specialize (IH (times + 1) (elapse interval w1) (budget_step _ _ _ Hin Hfuel)).
    unfold calls in *. cbn. by rewrite !String.eqb_refl, IH.
Qed.

(** ** The waits as their callers start them *)

Lemma budget_from_zero (bound : Z) :
  Z.of_nat (Z.to_nat (bound - 0 + 1)) = Z.max 0 (bound + 1).
Proof. lia. Qed.

(** C4 (as amended).  For every [timeoutSec], [WaitPodReady] ends, and it
    fetches the pod at most [max 0 (timeoutSec / 6 + 1)] times, where [/]
    is Go's division, which rounds towards zero.  When every fetch answers
    a pod short of [Running] it makes exactly that many fetches and then
    fails with the error that names the pod. *)
Theorem WaitPodReady_fetch_bound (name namespace : string) (timeoutSec : Z)
    (w : World S) :
  let x := WaitPodReady name namespace timeoutSec w in
  (∃ v, result x = Done v)
  ∧ Z.of_nat (count isGet (calls x)) <= Z.max 0 (Z.quot timeoutSec 6 + 1)
  ∧ (forallb notYetRunning (fetched (calls x)) = true →
     result x = Done (None, Some (Errorf "pod %s failed to start" [AString name]))
     ∧ Z.of_nat (count isGet (calls x)) = Z.max 0 (Z.quot timeoutSec 6 + 1)).
Proof.
  destruct (waitPodReady_fuel_run _ name namespace timeoutSec 0 w (le_n _))
    as (Hend & Hcount & _ & _ & Hall).
  pose proof (budget_from_zero (Z.quot timeoutSec interval)) as Hb.
  unfold WaitPodReady, waitPodReady, interval in *. cbn zeta.
  split; [done|]. split; [lia|].
  intros Hf. destruct (Hall Hf) as [-> Hn]. split; [done|lia].
Qed.

(** For a timeout that is not negative Go's quotient is the quotient
    rounded down, and the bound reads [floor (timeoutSec / 6) + 1]. *)
Corollary WaitPodReady_fetch_bound_floor (name namespace : string) (timeoutSec : Z)
    (w : World S) :
  0 <= timeoutSec →
  Z.of_nat (count isGet (calls (WaitPodReady name namespace timeoutSec w)))
  <= timeoutSec `div` 6 + 1.
Proof.
  intros Hpos.
  destruct (waitPodReady_fuel_run _ name namespace timeoutSec 0 w (le_n _))
    as (_ & Hcount & _).
  unfold WaitPodReady, waitPodReady, interval in *.
  rewrite <- (Z.quot_div_nonneg timeoutSec 6) by lia.
  pose proof (Z.quot_pos timeoutSec 6 Hpos). lia.
Qed.

(** C5 (as amended).  [WaitPodTerminate] takes no timeout.  It ends; its
    calls are attempts that each sleep 6 seconds and then fetch the pod;
    there are at most 11 of them, one for each value 0 to 10 of the counter.
    When every fetch finds the pod marked for deletion there are exactly 11
    and the wait fails with the error that names the pod as still
    terminating. *)
Theorem WaitPodTerminate_attempts (name namespace : string) (w : World S) :
  let x := WaitPodTerminate name namespace w in
  (∃ v, result x = Done v)
  ∧ sleepThenFetch 6 name namespace (calls x) = true
  ∧ (count isGet (calls x) ≤ 11)%nat
  ∧ (forallb terminating (fetched (calls x)) = true →
     result x = Done (None, Some (Errorf
                  "pod '%s' still terminating, please try again later" [AString name]))
     ∧ count isGet (calls x) = 11%nat).
Proof.
  destruct (waitPodTerminate_fuel_run _ name namespace 0 w (le_n _))
    as (Hend & Hshape & _ & Hcount & _ & _ & Hall).
  unfold WaitPodTerminate, waitPodTerminate, interval in *. cbn zeta.
  change (Z.to_nat (10 - 0 + 1)) with 11%nat in *.
  repeat split; try done; by apply Hall.
Qed.

(** C1 (as amended).  When a fetch of [WaitPodTerminate] fails, with
    NotFound or with any other error, that fetch is the last one and the
    wait hands the error itself back to the caller, with no pod, whatever
    the number of attempts made before. *)
Theorem WaitPodTerminate_fetch_error (name namespace : string) (w : World S)
    (err : error) :
  inr err ∈ fetched (calls (WaitPodTerminate name namespace w)) →
  result (WaitPodTerminate name namespace w) = Done (None, Some err)
  ∧ last (fetched (calls (WaitPodTerminate name namespace w))) = Some (inr err).
Proof.
  destruct (waitPodTerminate_fuel_run _ name namespace 0 w (le_n _))
    as (_ & _ & _ & _ & Herr & _).
  apply Herr.
Qed.

(** C6 (as amended).  When every listing of [WaitPodsReady] goes through
    and [filterRunningPods] keeps nothing of it, the wait fails, and the
    last listing alone decides how: if it is empty, with the error that
    names the label set as not found; otherwise with the error that names
    the first pod of that listing as having failed to start. *)
Theorem WaitPodsReady_exhausted (labels : gomap) (namespace : string) (timeoutSec : Z)
    (w : World S) :
  let x := WaitPodsReady labels namespace timeoutSec w in
  forallb nothingReady (listed (calls x)) = true →
  ∃ items, last (listed (calls x)) = Some (inl items)
    ∧ (items = [] →
       result x = Done (None, Some (Errorf "pod with label %v not found"
                                           [ALabels labels])))
    ∧ (∀ pod rest, items = pod :: rest →
       result x = Done (None, Some (Errorf "pod %s failed to start"
                                           [AString (Name pod)]))).
Proof.
  destruct (waitPodsReady_fuel_run _ labels namespace timeoutSec 0 w (le_n _))
    as (_ & _ & _ & Hall).
  cbn zeta. intros Hf. destruct (Hall Hf) as (items & Hlast & Hres & _).
  exists items. split; [done|].
  split; [intros ->|intros pod rest ->]; exact Hres.
Qed.

(** C8 (as amended).  [WaitPodReady] sleeps 6 seconds after every fetch
    that leads to a retry, so that every fetch but the first follows a sleep
    of 6 seconds, and [WaitPodTerminate] sleeps 6 seconds before every
    fetch; neither sleeps otherwise.  [WaitPodReady] and [WaitPodsReady] go
    on until their counter exceeds [timeoutSec / 6]: the first fetches at
    most [max 0 (timeoutSec / 6 + 1)] times, and exactly that often when
    every fetch answers a pod short of [Running]; the second lists at most
    once more than that, and exactly that often when every listing goes
    through with nothing ready.  [WaitPodTerminate] goes on until its
    counter exceeds 10, whatever timeout its caller works with: at most 11
    fetches, and exactly 11 when every fetch answers a pod marked for
    deletion. *)
Theorem waits_interval_and_budget (name namespace : string) (labels : gomap)
    (timeoutSec : Z) (w : World S) :
  (let x := WaitPodReady name namespace timeoutSec w in
   fetchThenSleep 6 name namespace (calls x) = true
   ∧ Forall (eq 6) (sleeps (calls x))
   ∧ Z.of_nat (count isGet (calls x)) <= Z.max 0 (Z.quot timeoutSec 6 + 1)
   ∧ (forallb notYetRunning (fetched (calls x)) = true →
      Z.of_nat (count isGet (calls x)) = Z.max 0 (Z.quot timeoutSec 6 + 1)))
  ∧ (let x := WaitPodsReady labels namespace timeoutSec w in
     Z.of_nat (count isList (calls x)) <= Z.max 0 (Z.quot timeoutSec 6 + 1) + 1
     ∧ (forallb nothingReady (listed (calls x)) = true →
        Z.of_nat (count isList (calls x)) = Z.max 0 (Z.quot timeoutSec 6 + 1) + 1))
  ∧ (let x := WaitPodTerminate name namespace w in
     sleepThenFetch 6 name namespace (calls x) = true
     ∧ Forall (eq 6) (sleeps (calls x))
     ∧ (count isGet (calls x) ≤ 11)%nat
     ∧ (forallb terminating (fetched (calls x)) = true →
        count isGet (calls x) = 11%nat)).
Proof.
  destruct (waitPodReady_fuel_run _ name namespace timeoutSec 0 w (le_n _))
    as (_ & Hget & Hsleep & _ & Hall).
  pose proof (waitPodReady_fuel_shape _ name namespace timeoutSec 0 w (le_n _)) as Hshape.
  destruct (waitPodTerminate_fuel_run _ name namespace 0 w (le_n _))
    as (_ & Hshape' & Hsleep' & Hget' & _ & _ & Hall').
  destruct (waitPodsReady_fuel_run _ labels namespace timeoutSec 0 w (le_n _))
    as (_ & Hlist & _ & Hall'').
  pose proof (budget_from_zero (Z.quot timeoutSec interval)) as Hb.
  unfold WaitPodReady, waitPodReady, WaitPodTerminate, waitPodTerminate,
    WaitPodsReady, waitPodsReady, interval in *. cbn zeta.
  change (Z.to_nat (10 - 0 + 1)) with 11%nat in *.
  split; [|split].
  - split; [done|]. split; [done|]. split; [lia|].
    intros Hf. destruct (Hall Hf) as [_ Hn]. lia.
  - split; [lia|]. intros Hf. destruct (Hall'' Hf) as (items & _ & _ & Hn). lia.
  - split; [done|]. split; [done|]. split; [done|].
    intros Hf. by destruct (Hall' Hf).
Qed.

(** C9 (as amended).  Provided [filterRunningPods] keeps running pods only:
    whenever [WaitPodReady] returns without error it returns a pod whose
    phase is [Running], and whenever [WaitPodsReady] returns without error
    it returns what [filterRunningPods] keeps of a listing it made, a
    non-empty list of pods that are all in phase [Running].  The third wait
    is different: whenever [WaitPodTerminate] returns without error it
    returns a pod that it fetched and that carries no deletion timestamp,
    whatever its phase. *)
Theorem waits_return_running
    (Hfilter : ∀ items pod, pod ∈ filterRunningPods items → Phase pod = PodRunning)
    (name namespace : string) (labels : gomap) (timeoutSec : Z) (w : World S) :
  (∀ p, result (WaitPodReady name namespace timeoutSec w) = Done (p, None) →
     ∃ pod, p = Some pod ∧ Phase pod = PodRunning)
  ∧ (∀ ps, result (WaitPodsReady labels namespace timeoutSec w) = Done (ps, None) →
     ∃ items pods,
       inl items ∈ listed (calls (WaitPodsReady labels namespace timeoutSec w))
       ∧ pods = filterRunningPods items
       ∧ ps = Some pods ∧ pods ≠ []
       ∧ Forall (λ pod, Phase pod = PodRunning) pods)
  ∧ (∀ p, result (WaitPodTerminate name namespace w) = Done (p, None) →
     ∃ pod, p = Some pod ∧ DeletionTimestamp pod = None).
Proof.
  destruct (waitPodReady_fuel_run _ name namespace timeoutSec 0 w (le_n _))
    as (_ & _ & _ & Hok & _).
  destruct (waitPodsReady_fuel_run _ labels namespace timeoutSec 0 w (le_n _))
    as (_ & _ & Hoks & _).
  destruct (waitPodTerminate_fuel_run _ name namespace 0 w (le_n _))
    as (_ & _ & _ & _ & _ & Hokt & _).
  split; [exact Hok|]. split; [|exact Hokt].
  intros ps Hps. destruct (Hoks ps Hps) as (items & Hin & -> & Hsome).
  exists items, (filterRunningPods items). repeat split; [done|done|].
  apply Forall_forall. intros pod Hpod. by apply (Hfilter items).
Qed.

(** ** [DecreasePodRef] *)

(** C7.  When the fetched pod carries the ref-count annotation ["1"],
    [DecreasePodRef] returns [cleanup = true] with a nil error; the fetch is
    its only call on the store, so it updates nothing, and it leaves the
    world as the fetch left it. *)
Theorem DecreasePodRef_last_reference (name namespace : string) (w w1 : World S)
    (pod : Pod) :
  Get namespace name w = (inl pod, w1) →
  entry (Annotations pod) KtRefCount (heap w1) = Some "1" →
  DecreasePodRef name namespace w
  = (Done (true, None), w1, [PodsGet name namespace (inl pod)])
  ∧ count isUpdate (calls (DecreasePodRef name namespace w)) = 0%nat.
Proof.
  intros Hget Hentry.
  assert (Hrun : DecreasePodRef name namespace w
                 = (Done (true, None), w1, [PodsGet name namespace (inl pod)])).
  { unfold DecreasePodRef, bind, GetPod, mapIndex, index.
    rewrite Hget. cbn. by rewrite Hentry. }
  by rewrite Hrun.
Qed.

(** C2 (what the code does).  When the fetched pod carries a ref-count
    annotation other than ["1"] that [decreaseRef] rejects,
    [DecreasePodRef] makes no call besides the fetch, so it writes nothing,
    and it returns [cleanup = false] with a nil error: the error of
    [decreaseRef] does not reach the caller. *)
Theorem DecreasePodRef_parse_error_dropped (name namespace : string) (w w1 : World S)
    (pod : Pod) (refCount count : string) (err2 : error) :
  Get namespace name w = (inl pod, w1) →
  entry (Annotations pod) KtRefCount (heap w1) = Some refCount →
  refCount ≠ "1" →
  decreaseRef refCount = (count, Some err2) →
  DecreasePodRef name namespace w
  = (Done (false, None), w1, [PodsGet name namespace (inl pod)]).
Proof.
  intros Hget Hentry Hne Hdec.
  unfold DecreasePodRef, bind, GetPod, mapIndex, index.
  rewrite Hget. cbn. rewrite Hentry. cbn.
  destruct (String.eqb_spec refCount "1") as [?|_]; [done|].
  by rewrite Hdec.
Qed.

(** ** [ExecInPod] *)

(** A format without a percent sign is rendered as it stands. *)
Lemma Sprintf0_noPercent (format : string) :
  fmt.noPercent format = true → fmt.Sprintf0 format = Some format.
Proof.
  induction format as [|c rest IH]; [done|].
  cbn [fmt.noPercent]. intros [Hc Hrest]%andb_prop.
  apply negb_true_iff in Hc.
  assert (Hstep : fmt.Sprintf0 (String c rest) = String c <$> fmt.Sprintf0 rest).
  { destruct c as [[] [] [] [] [] [] [] []]; try reflexivity. discriminate Hc. }
  rewrite Hstep, (IH Hrest). done.
Qed.

(** What [ExecInPod] returns when the transport reports no error and the
    cleaned stderr holds a failure text: both buffers trimmed and then
    stripped of colour, and the error that [fmt.Errorf] builds with the
    failure text as its format, whose message is that text whenever the
    text has no percent sign. *)
Lemma ExecInPod_embedded_failure (containerName podName namespace : string)
    (cmd : list string) (w w1 : World S) (stdout stderr : string) :
  Stream containerName podName namespace cmd w = ((stdout, stderr, None), w1) →
  let stdoutMsg := RemoveColor (strings.TrimSpace stdout) in
  let stderrMsg := RemoveColor (strings.TrimSpace stderr) in
  let rawErrMsg := ExtractErrorMessage stderrMsg in
  rawErrMsg ≠ "" →
  ExecInPod containerName podName namespace cmd w
  = (Done (stdoutMsg, stderrMsg, Some (Errorf rawErrMsg [])), w1,
     [ExecStream containerName podName namespace cmd])
  ∧ Error (Errorf rawErrMsg []) = fmt.Sprintf0 rawErrMsg
  ∧ (fmt.noPercent rawErrMsg = true → Error (Errorf rawErrMsg []) = Some rawErrMsg).
Proof.
  intros Hstream stdoutMsg stderrMsg rawErrMsg Hraw.
  split; [|split; [done|apply Sprintf0_noPercent]].
  unfold ExecInPod, bind, execute. rewrite Hstream. cbn.
  fold stderrMsg. fold rawErrMsg.
  by destruct (String.eqb_spec rawErrMsg "").
Qed.

(** C3 (what the code does).  When the transport reports no error and the
    failure text found in the cleaned stderr is [usage 100%], [ExecInPod]
    returns both buffers trimmed and then stripped of colour together with
    a non-nil error, but the message of that error is
    [usage 100%!(NOVERB)], not the failure text. *)
Theorem ExecInPod_percent_in_failure_text (containerName podName namespace : string)
    (cmd : list string) (w w1 : World S) (stdout stderr : string) :
  Stream containerName podName namespace cmd w = ((stdout, stderr, None), w1) →
  ExtractErrorMessage (RemoveColor (strings.TrimSpace stderr)) = "usage 100%" →
  ∃ err,
    ExecInPod containerName podName namespace cmd w
    = (Done (RemoveColor (strings.TrimSpace stdout),
             RemoveColor (strings.TrimSpace stderr), Some err), w1,
       [ExecStream containerName podName namespace cmd])
    ∧ Error err = Some "usage 100%!(NOVERB)"
    ∧ Error err ≠ Some "usage 100%".
Proof.
  intros Hstream Hraw.
  destruct (ExecInPod_embedded_failure _ _ _ _ _ _ _ _ Hstream) as (Hrun & _).
  { by rewrite Hraw. }
  rewrite Hraw in Hrun. eexists. split; [exact Hrun|]. done.
Qed.

End Facts.

(** ** [MapPut] *)

Lemma MapPut_nil (k v : string) (h : Heap) :
  MapPut None k v h = Some (alter (<[k := v]>) (make h).1 (make h).2).
Proof. done. Qed.

Lemma MapPut_ref (l : positive) (k v : string) (h : Heap) :
  MapPut (Some l) k v h = Some (alter (<[k := v]>) l h).
Proof. done. Qed.

Lemma entry_unchanged (m : mapref) (k : string) (h h' : Heap) :
  valid m h → (∀ l, m = Some l → h' !! l = h !! l) → entry m k h' = entry m k h.
Proof.
  destruct m as [l|]; [|done].
  intros _ Hsame. cbn. by rewrite (Hsame l eq_refl).
Qed.

(** C10.  [MapPut] never panics.  Called with a [nil] map it changes no map
    that existed before the call, so whatever map the caller holds reads as
    it did before and the pair [k], [v] is lost with the map that the
    function allocated for itself.  Called with a map that is not [nil] it
    leaves [v] under [k] in that map and changes neither another entry of
    it nor another map. *)
Theorem MapPut_nil_lost_nonnil_stored (m : mapref) (k v : string) (h : Heap) :
  valid m h →
  ∃ h', MapPut m k v h = Some h'
    ∧ match m with
      | None =>
          (∀ l, l ∈ dom h → h' !! l = h !! l)
          ∧ (∀ m' k', valid m' h → entry m' k' h' = entry m' k' h)
      | Some l =>
          entry m k h' = Some v
          ∧ (∀ k', k' ≠ k → entry m k' h' = entry m k' h)
          ∧ (∀ l', l' ≠ l → h' !! l' = h !! l')
          ∧ (∀ m' k', valid m' h → m' ≠ m → entry m' k' h' = entry m' k' h)
      end.
Proof.
  intros Hvalid. destruct m as [l|].
  - exists (alter (<[k := v]>) l h). split; [apply MapPut_ref|].
    cbn in Hvalid. apply elem_of_dom in Hvalid as [o Ho].
    assert (Hother : ∀ l', l' ≠ l → alter (<[k := v]>) l h !! l' = h !! l').
    { intros l' Hl'. by apply lookup_alter_ne. }
    repeat split.
    + cbn. by rewrite lookup_alter_eq, Ho; cbn; rewrite lookup_insert_eq.
    + intros k' Hk'. cbn. rewrite lookup_alter_eq, Ho. cbn. by rewrite lookup_insert_ne.
    + done.
    + intros m' k' Hm' Hne. apply entry_unchanged; [done|].
      intros l' ->. apply Hother. congruence.
  - exists (alter (<[k := v]>) (make h).1 (make h).2). split; [apply MapPut_nil|].
    assert (Hkeep : ∀ l, l ∈ dom h →
              alter (<[k := v]>) (make h).1 (make h).2 !! l = h !! l).
    { intros l Hl. unfold make; cbn.
      assert (fresh (dom h) ≠ l) by (intros <-; by apply (is_fresh (dom h))).
      by rewrite lookup_alter_ne, lookup_insert_ne. }
    split; [done|].
    intros m' k' Hm'. apply entry_unchanged; [done|].
    intros l ->. by apply Hkeep.
Qed.

(** ** The properties at concrete stores *)

Lemma runningOnly_sound (items : list Pod) (p : Pod) :
  p ∈ runningOnly items → Phase p = PodRunning.
Proof. unfold runningOnly. by intros [? _]%list_elem_of_filter. Qed.

(** The spec's scenario: the pod is Pending, Pending, then Running, and
    [WaitPodReady] returns the running pod at the third fetch. *)
Example WaitPodReady_third_fetch :
  result (WaitPodReady (K := startsAtThird) "shadow" "default" 30 start)
  = Done (Some (pod "shadow" PodRunning None), None)
  ∧ count isGet (calls (WaitPodReady (K := startsAtThird) "shadow" "default" 30 start))
    = 3%nat.
Proof. by vm_compute. Qed.

(** C1, the claim as stated fails: the pod is gone at the third fetch, and
    the wait returns the NotFound error, not a result without error. *)
Lemma WaitPodTerminate_not_found_is_an_error :
  last (fetched (calls (WaitPodTerminate (K := goneAtThird) "shadow" "default" start)))
  = Some (inr notFound)
  ∧ IsNotFound notFound = true
  ∧ result (WaitPodTerminate (K := goneAtThird) "shadow" "default" start)
    = Done (None, Some notFound)
  ∧ ¬ ∃ p, result (WaitPodTerminate (K := goneAtThird) "shadow" "default" start)
           = Done (p, None).
Proof.
  assert (Hres : result (WaitPodTerminate (K := goneAtThird) "shadow" "default" start)
                 = Done (None, Some notFound)) by by vm_compute.
  split; [by vm_compute|]. split; [done|]. split; [done|].
  rewrite Hres. by intros [p [=]].
Qed.

Lemma WaitPodTerminate_fetch_error_witness :
  result (WaitPodTerminate (K := goneAtThird) "shadow" "default" start)
  = Done (None, Some notFound)
  ∧ last (fetched (calls (WaitPodTerminate (K := goneAtThird) "shadow" "default" start)))
    = Some (inr notFound).
Proof.
  apply (WaitPodTerminate_fetch_error (K := goneAtThird) "shadow" "default" start notFound).
  vm_compute. do 2 apply list_elem_of_further. apply list_elem_of_here.
Defined.

(** C2, at the annotation [abc]: no error reaches the caller. *)
Lemma DecreasePodRef_parse_error_dropped_witness :
  DecreasePodRef (K := countedStore) (H := helpers) "shadow" "default" (withCount "abc")
  = (Done (false, None), mkWorld (heap (withCount "abc")) 1%nat,
     [PodsGet "shadow" "default" (inl counted)]).
Proof.
  apply (DecreasePodRef_parse_error_dropped (K := countedStore) (H := helpers)
           "shadow" "default" (withCount "abc") _ counted "abc" ""
           (NumError "Atoi" "abc" strconv.ErrSyntax)).
  - reflexivity.
  - vm_compute. reflexivity.
  - discriminate.
  - vm_compute. reflexivity.
Defined.

(** C3, at a stderr whose failure text is [usage 100%]. *)
Lemma ExecInPod_percent_in_failure_text_witness :
  ∃ err,
    ExecInPod (K := failingCommand) (H := helpers) "shadow" "shadow" "default" ["ls"] start
    = (Done ("total 0", "1:02PM ERR exec failed error: usage 100%", Some err), start,
       [ExecStream "shadow" "shadow" "default" ["ls"]])
    ∧ Error err = Some "usage 100%!(NOVERB)"
    ∧ Error err ≠ Some "usage 100%".
Proof.
  apply (ExecInPod_percent_in_failure_text (K := failingCommand) (H := helpers)
           "shadow" "shadow" "default" ["ls"] start start
           (fst (fst (Stream (Kubernetes := failingCommand) "" "" "" [] start).1))
           (snd (fst (Stream (Kubernetes := failingCommand) "" "" "" [] start).1))).
  - reflexivity.
  - vm_compute. reflexivity.
Defined.

(** The buffers are trimmed before the colour is stripped, so white space
    that sits inside the colour sequences stays. *)
Example ExecInPod_trims_before_stripping :
  result (ExecInPod (K := colouredOutput) (H := helpers) "shadow" "shadow" "default"
            ["ls"] start)
  = Done (" ready ", "", None).
Proof. by vm_compute. Qed.

(** [IncreasePodRef], the sibling of [DecreasePodRef], hands the parse error
    of the same annotation back to its caller. *)
Example IncreasePodRef_parse_error_returned :
  result (IncreasePodRef (K := countedStore) (H := helpers) "shadow" "default"
            (withCount "abc"))
  = Done (Some (NumError "Atoi" "abc" strconv.ErrSyntax)).
Proof. by vm_compute. Qed.

(** C4, the claim as stated fails: with [timeoutSec = -1] the quotient
    rounded down is -1 and the claimed bound is 0, but Go's quotient is 0
    and one fetch is made. *)
Lemma WaitPodReady_negative_timeout :
  (-1) `div` 6 + 1 = 0
  ∧ count isGet (calls (WaitPodReady (K := stuckPending) "shadow" "default" (-1) start))
    = 1%nat
  ∧ ¬ (Z.of_nat (count isGet
         (calls (WaitPodReady (K := stuckPending) "shadow" "default" (-1) start)))
       <= (-1) `div` 6 + 1).
Proof.
  assert (Hn : count isGet
                 (calls (WaitPodReady (K := stuckPending) "shadow" "default" (-1) start))
               = 1%nat) by by vm_compute.
  split; [done|]. split; [done|]. rewrite Hn. by vm_compute.
Qed.

(** C5, the claim as stated fails: against a pod that stays marked for
    deletion the wait makes 11 attempts, not at most 10. *)
Lemma WaitPodTerminate_eleven_attempts :
  count isGet (calls (WaitPodTerminate (K := stuckTerminating) "shadow" "default" start))
  = 11%nat
  ∧ ¬ (count isGet
         (calls (WaitPodTerminate (K := stuckTerminating) "shadow" "default" start))
       ≤ 10)%nat.
Proof.
  assert (Hn : count isGet
                 (calls (WaitPodTerminate (K := stuckTerminating) "shadow" "default" start))
               = 11%nat) by by vm_compute.
  split; [done|]. rewrite Hn. lia.
Qed.

(** C6, the claim as stated fails: the selector matches nothing at the
    first listing and a pending pod at the second, which finds the counter
    past its bound; no pod ever runs, the listed set was empty at one point,
    and yet the error is the one that names the pod, not the one that names
    the selector. *)
Lemma WaitPodsReady_empty_once :
  head (listed (calls (WaitPodsReady (K := lateArrival) (H := helpers)
                         {[ "app" := "shadow" ]} "default" 0 start)))
  = Some (inl [])
  ∧ forallb (nothingReady (H := helpers))
      (listed (calls (WaitPodsReady (K := lateArrival) (H := helpers)
                        {[ "app" := "shadow" ]} "default" 0 start))) = true
  ∧ result (WaitPodsReady (K := lateArrival) (H := helpers)
              {[ "app" := "shadow" ]} "default" 0 start)
    = Done (None, Some (Errorf "pod %s failed to start" [AString "shadow"]))
  ∧ result (WaitPodsReady (K := lateArrival) (H := helpers)
              {[ "app" := "shadow" ]} "default" 0 start)
    ≠ Done (None, Some (Errorf "pod with label %v not found"
                               [ALabels {[ "app" := "shadow" ]}])).
Proof.
  assert (Hres : result (WaitPodsReady (K := lateArrival) (H := helpers)
                           {[ "app" := "shadow" ]} "default" 0 start)
                 = Done (None, Some (Errorf "pod %s failed to start" [AString "shadow"])))
    by by vm_compute.
  split; [by vm_compute|]. split; [by vm_compute|]. split; [done|].
  rewrite Hres. discriminate.
Qed.

Lemma WaitPodsReady_exhausted_witness :
  ∃ items,
    last (listed (calls (WaitPodsReady (K := nothingListed) (H := helpers)
                           {[ "app" := "shadow" ]} "default" 12 start)))
    = Some (inl items)
    ∧ (items = [] →
       result (WaitPodsReady (K := nothingListed) (H := helpers)
                 {[ "app" := "shadow" ]} "default" 12 start)
       = Done (None, Some (Errorf "pod with label %v not found"
                                  [ALabels {[ "app" := "shadow" ]}])))
    ∧ (∀ pod rest, items = pod :: rest →
       result (WaitPodsReady (K := nothingListed) (H := helpers)
                 {[ "app" := "shadow" ]} "default" 12 start)
       = Done (None, Some (Errorf "pod %s failed to start" [AString (Name pod)]))).
Proof.
  apply (WaitPodsReady_exhausted (K := nothingListed) (H := helpers)
           {[ "app" := "shadow" ]} "default" 12 start).
  vm_compute. reflexivity.
Defined.

(** The scenario of a selector that matches nothing for the whole window:
    the error names the selector. *)
Example WaitPodsReady_nothing_listed :
  result (WaitPodsReady (K := nothingListed) (H := helpers)
            {[ "app" := "shadow" ]} "default" 12 start)
  = Done (None, Some (Errorf "pod with label %v not found"
                             [ALabels {[ "app" := "shadow" ]}]))
  ∧ count isList (calls (WaitPodsReady (K := nothingListed) (H := helpers)
                           {[ "app" := "shadow" ]} "default" 12 start)) = 4%nat.
Proof. by vm_compute. Qed.

(** C7, at the annotation [1]. *)
Lemma DecreasePodRef_last_reference_witness :
  DecreasePodRef (K := countedStore) (H := helpers) "shadow" "default" (withCount "1")
  = (Done (true, None), mkWorld (heap (withCount "1")) 1%nat,
     [PodsGet "shadow" "default" (inl counted)])
  ∧ count isUpdate
      (calls (DecreasePodRef (K := countedStore) (H := helpers) "shadow" "default"
                (withCount "1"))) = 0%nat.
Proof.
  apply (DecreasePodRef_last_reference (K := countedStore) (H := helpers)
           "shadow" "default" (withCount "1") _ counted).
  - reflexivity.
  - vm_compute. reflexivity.
Defined.

(** The same pod with two references left: the count is written back. *)
Example DecreasePodRef_two_references :
  result (DecreasePodRef (K := countedStore) (H := helpers) "shadow" "default"
            (withCount "2")) = Done (false, None)
  ∧ count isUpdate
      (calls (DecreasePodRef (K := countedStore) (H := helpers) "shadow" "default"
                (withCount "2"))) = 1%nat
  ∧ entry (Some 1%positive) "kt-ref-count"
      (heap (after (DecreasePodRef (K := countedStore) (H := helpers) "shadow" "default"
                      (withCount "2")))) = Some "1".
Proof. by vm_compute. Qed.

(** C8, the claim as stated fails: the set wait sleeps one second between
    its listings, and the termination wait makes 11 attempts where a
    timeout of 6 seconds divided by the interval allows 2. *)
Lemma waits_do_not_share_interval_and_budget :
  sleeps (calls (WaitPodsReady (K := nothingListed) (H := helpers)
                   {[ "app" := "shadow" ]} "default" 6 start)) = [1; 1]
  ∧ ¬ Forall (eq 6)
        (sleeps (calls (WaitPodsReady (K := nothingListed) (H := helpers)
                          {[ "app" := "shadow" ]} "default" 6 start)))
  ∧ count isGet (calls (WaitPodTerminate (K := stuckTerminating) "shadow" "default" start))
    = 11%nat
  ∧ ¬ (Z.of_nat (count isGet
         (calls (WaitPodTerminate (K := stuckTerminating) "shadow" "default" start)))
       <= Z.quot 6 6 + 1).
Proof.
  assert (Hs : sleeps (calls (WaitPodsReady (K := nothingListed) (H := helpers)
                                {[ "app" := "shadow" ]} "default" 6 start)) = [1; 1])
    by by vm_compute.
  assert (Hn : count isGet
                 (calls (WaitPodTerminate (K := stuckTerminating) "shadow" "default" start))
               = 11%nat) by by vm_compute.
  split; [done|]. rewrite Hs, Hn. split; [|split; [done|by vm_compute]].
  intros Hall. apply Forall_cons in Hall as [Hhead _]. discriminate Hhead.
Qed.

(** C9, the claim as stated fails for the third wait: the pod is there,
    [Pending] and not marked for deletion, and [WaitPodTerminate] returns it
    without error after one fetch, though nothing has terminated. *)
Lemma WaitPodTerminate_returns_live_pod :
  result (WaitPodTerminate (K := stuckPending) "shadow" "default" start)
  = Done (Some (pod "shadow" PodPending None), None)
  ∧ fetched (calls (WaitPodTerminate (K := stuckPending) "shadow" "default" start))
    = [inl (pod "shadow" PodPending None)]
  ∧ Phase (pod "shadow" PodPending None) ≠ PodRunning
  ∧ ¬ ∃ err, result (WaitPodTerminate (K := stuckPending) "shadow" "default" start)
             = Done (None, Some err).
Proof.
  assert (Hres : result (WaitPodTerminate (K := stuckPending) "shadow" "default" start)
                 = Done (Some (pod "shadow" PodPending None), None)) by by vm_compute.
  split; [done|]. split; [by vm_compute|]. split; [done|].
  rewrite Hres. by intros [err [=]].
Qed.

(** C9, at a store whose selector matches a pending and a running pod. *)
Lemma waits_return_running_witness :
  (∀ p, result (WaitPodReady (K := oneOfTwoRunning) "shadow" "default" 30 start)
        = Done (p, None) →
     ∃ pod, p = Some pod ∧ Phase pod = PodRunning)
  ∧ (∀ ps, result (WaitPodsReady (K := oneOfTwoRunning) (H := helpers)
                     {[ "app" := "shadow" ]} "default" 30 start) = Done (ps, None) →
     ∃ items pods,
       inl items ∈ listed (calls (WaitPodsReady (K := oneOfTwoRunning) (H := helpers)
                                    {[ "app" := "shadow" ]} "default" 30 start))
       ∧ pods = runningOnly items
       ∧ ps = Some pods ∧ pods ≠ []
       ∧ Forall (λ pod, Phase pod = PodRunning) pods)
  ∧ (∀ p, result (WaitPodTerminate (K := oneOfTwoRunning) "shadow" "default" start)
          = Done (p, None) →
     ∃ pod, p = Some pod ∧ DeletionTimestamp pod = None).
Proof.
  apply (waits_return_running (K := oneOfTwoRunning) (H := helpers) runningOnly_sound
           "shadow" "default" {[ "app" := "shadow" ]} 30 start).
Defined.

(** The set wait hands back the running pod of the two. *)
Example WaitPodsReady_running_subset :
  result (WaitPodsReady (K := oneOfTwoRunning) (H := helpers)
            {[ "app" := "shadow" ]} "default" 30 start)
  = Done (Some [pod "shadow" PodRunning None], None).
Proof. by vm_compute. Qed.

(** C10, at a map that holds one other entry. *)
Lemma MapPut_nil_lost_nonnil_stored_witness :
  ∃ h', MapPut (Some 1%positive) "kt-ref-count" "2" {[ 1%positive := {[ "owner" := "kt" ]} ]}
        = Some h'
    ∧ entry (Some 1%positive) "kt-ref-count" h' = Some "2"
    ∧ (∀ k', k' ≠ "kt-ref-count" →
         entry (Some 1%positive) k' h'
         = entry (Some 1%positive) k' {[ 1%positive := {[ "owner" := "kt" ]} ]})
    ∧ (∀ l', l' ≠ 1%positive →
         h' !! l' = ({[ 1%positive := {[ "owner" := "kt" ]} ]} : Heap) !! l')
    ∧ (∀ m' k', valid m' {[ 1%positive := {[ "owner" := "kt" ]} ]} →
         m' ≠ Some 1%positive →
         entry m' k' h' = entry m' k' {[ 1%positive := {[ "owner" := "kt" ]} ]}).
Proof.
  apply (MapPut_nil_lost_nonnil_stored (Some 1%positive) "kt-ref-count" "2"
           {[ 1%positive := {[ "owner" := "kt" ]} ]}).
  unfold valid. rewrite elem_of_dom. by eexists.
Defined.

(** On a [nil] map the pair goes to a map of the function's own: the map
    the caller holds is still [nil] and reads nothing. *)
Example MapPut_nil_example :
  MapPut None "kt-ref-count" "2" ∅ = Some {[ 1%positive := {[ "kt-ref-count" := "2" ]} ]}
  ∧ entry None "kt-ref-count" {[ 1%positive := {[ "kt-ref-count" := "2" ]} ]} = None.
Proof. by vm_compute. Qed.

(** * The rest of package util *)

Lemma entry_contents (m : mapref) (k : string) (h : Heap) :
  entry m k h = contents m h !! k.
Proof.
  destruct m as [l|]; cbn; [|by rewrite lookup_empty].
  destruct (h !! l); cbn; [done|by rewrite lookup_empty].
Qed.

Lemma index_contents (m : mapref) (k : string) (h : Heap) :
  index m k h = default "" (contents m h !! k).
Proof. unfold index. by rewrite entry_contents. Qed.

Lemma contents_unchanged (m : mapref) (h h' : Heap) :
  valid m h → (∀ l, l ∈ dom h → h' !! l = h !! l) → contents m h' = contents m h.
Proof.
  destruct m as [l|]; [|done].
  cbn. intros Hl Hsame. by rewrite (Hsame l Hl).
Qed.

(** ** [MapContains] and [MapEquals] *)

Lemma MapContains_loop_true (entries : list (string * string)) (fullset : mapref)
    (h : Heap) :
  MapContains_loop entries fullset h = true
  ↔ ∀ sk sv, (sk, sv) ∈ entries → index fullset sk h = sv.
Proof.
  induction entries as [|[k v] rest IH]; cbn.
  { split; [|done]. intros _ sk sv Hin. by apply elem_of_nil in Hin. }
  destruct (String.eqb_spec (index fullset k h) v) as [Heq|Hne]; cbn.
  - rewrite IH. split.
    + intros Hrest sk sv [[= -> ->]|Hin]%elem_of_cons; [done|by apply Hrest].
    + intros Hall sk sv Hin. apply Hall. by apply list_elem_of_further.
  - split; [done|]. intros Hall. destruct Hne. apply Hall, list_elem_of_here.
Qed.

(** X1.  [MapContains] holds exactly when every entry of [subset] is what
    indexing [fullset] with its key returns; indexing returns the empty
    string for a key that [fullset] lacks, and for every key of a [nil]
    map. *)
Theorem MapContains_index (subset fullset : mapref) (h : Heap) :
  MapContains subset fullset h = true
  ↔ ∀ sk sv, entry subset sk h = Some sv → index fullset sk h = sv.
Proof.
  unfold MapContains, range. rewrite MapContains_loop_true.
  split; intros Hall sk sv Hin; apply Hall.
  - apply elem_of_map_to_list. by rewrite <- entry_contents.
  - rewrite entry_contents. by apply elem_of_map_to_list.
Qed.

(** X2.  When no value of [subset] is the empty string, [MapContains] is
    inclusion of the entries of [subset] in those of [fullset]. *)
Theorem MapContains_inclusion (subset fullset : mapref) (h : Heap) :
  (∀ sk, entry subset sk h ≠ Some "") →
  MapContains subset fullset h = true ↔ contents subset h ⊆ contents fullset h.
Proof.
  intros Hfull. rewrite MapContains_index, map_subseteq_spec.
  split; intros Hall sk sv Hin.
  - rewrite <- entry_contents in Hin. specialize (Hall sk sv Hin).
    rewrite index_contents in Hall.
    destruct (contents fullset h !! sk) as [v|]; cbn in Hall; [by subst|].
    subst sv. by destruct (Hfull sk).
  - rewrite entry_contents in Hin. rewrite index_contents.
    by rewrite (Hall sk sv Hin).
Qed.

(** X3.  Against a [fullset] that is [nil], [MapContains] holds exactly
    when every value of [subset] is the empty string: entries with an empty
    value count as contained in a map that lacks their key. *)
Theorem MapContains_in_nil (subset : mapref) (h : Heap) :
  MapContains subset None h = true
  ↔ ∀ sk sv, entry subset sk h = Some sv → sv = "".
Proof.
  rewrite MapContains_index. split; intros Hall sk sv Hin.
  - by rewrite <- (Hall sk sv Hin).
  - by rewrite (Hall sk sv Hin).
Qed.

(** X4.  [MapEquals] holds for two maps with the same entries, and, when no
    value of [src] is the empty string, only for them. *)
Theorem MapEquals_same_entries (src target : mapref) (h : Heap) :
  (∀ sk, entry src sk h ≠ Some "") →
  MapEquals src target h = true ↔ contents src h = contents target h.
Proof.
  intros Hfull. unfold MapEquals, len.
  rewrite andb_true_iff, Nat.eqb_eq, (MapContains_inclusion _ _ _ Hfull).
  split.
  - intros [Hsize Hsub]. apply map_subseteq_size_eq; [done|lia].
  - by intros ->.
Qed.

(** X5.  Without that proviso [MapEquals] does not tell maps apart: it
    holds from every map whose values are all empty strings to every map
    with as many entries that has none of its keys. *)
Theorem MapEquals_empty_values (src target : mapref) (h : Heap) :
  (∀ sk sv, entry src sk h = Some sv → sv = "") →
  (∀ sk, is_Some (entry src sk h) → entry target sk h = None) →
  len src h = len target h →
  MapEquals src target h = true.
Proof.
  intros Hempty Hdisjoint Hlen. unfold MapEquals.
  rewrite Hlen, Nat.eqb_refl. cbn. apply MapContains_index.
  intros sk sv Hin. unfold index.
  rewrite (Hdisjoint sk) by by rewrite Hin.
  symmetry. by apply (Hempty sk).
Qed.

(** It holds from a map with one empty value to a map with one entry under
    another key, and fails the other way round. *)
Example MapEquals_not_symmetric :
  ∃ (src target : mapref) (h : Heap),
    valid src h ∧ valid target h
    ∧ contents src h ≠ contents target h
    ∧ MapEquals src target h = true
    ∧ MapEquals target src h = false.
Proof.
  exists (Some 1%positive), (Some 2%positive),
    {[ 1%positive := {[ "a" := "" ]}; 2%positive := {[ "b" := "x" ]} ]}.
  split; [unfold valid; rewrite elem_of_dom; eexists; by vm_compute|].
  split; [unfold valid; rewrite elem_of_dom; eexists; by vm_compute|].
  split; [|by vm_compute].
  intros Heq. assert (Hl : contents (Some 1%positive)
    {[ 1%positive := {[ "a" := "" ]}; 2%positive := {[ "b" := "x" ]} ]} !! "a"
    = Some "") by by vm_compute.
  rewrite Heq in Hl. by vm_compute in Hl.
Qed.

(** ** [MergeMap] *)

Lemma assign_existing (l : positive) (k v : string) (h : Heap) (o : gomap) :
  h !! l = Some o → assign (Some l) k v h = Some (<[l := <[k := v]> o]> h).
Proof.
  intros Ho. cbn. f_equal. apply map_eq. intros l'.
  destruct (decide (l = l')) as [<-|Hne].
  - by rewrite lookup_alter_eq, lookup_insert_eq, Ho.
  - by rewrite lookup_alter_ne, lookup_insert_ne.
Qed.

Lemma assignAll_existing (entries : list (string * string)) (l : positive) :
  ∀ (h : Heap) (o : gomap),
    h !! l = Some o →
    assignAll entries (Some l) h
    = Some (<[l := fold_left (λ acc kv, <[kv.1 := kv.2]> acc) entries o]> h).
Proof.
  induction entries as [|[k v] rest IH]; intros h o Ho.
  { cbn. by rewrite insert_id. }
  cbn [assignAll]. rewrite (assign_existing _ _ _ _ _ Ho).
  rewrite (IH _ (<[k := v]> o)) by by rewrite lookup_insert_eq.
  by rewrite insert_insert_eq.
Qed.

Lemma fold_left_insert_union (entries : list (string * string)) :
  ∀ o : gomap,
    NoDup entries.*1 →
    fold_left (λ acc kv, <[kv.1 := kv.2]> acc) entries o = list_to_map entries ∪ o.
Proof.
  induction entries as [|[k v] rest IH]; intros o Hnd.
  { cbn. by rewrite (left_id_L ∅ (∪)). }
  cbn in *. apply NoDup_cons in Hnd as [Hk Hnd].
  rewrite (IH _ Hnd), <- insert_union_l.
  symmetry. apply insert_union_r. by apply not_elem_of_list_to_map_1.
Qed.

Lemma range_assigned (m : mapref) (h : Heap) (o : gomap) :
  fold_left (λ acc kv, <[kv.1 := kv.2]> acc) (range m h) o = contents m h ∪ o.
Proof.
  unfold range. rewrite fold_left_insert_union by apply NoDup_fst_map_to_list.
  by rewrite list_to_map_to_list.
Qed.

Lemma contents_insert_fresh (m : mapref) (h : Heap) (l : positive) (o : gomap) :
  valid m h → l ∉ dom h → contents m (<[l := o]> h) = contents m h.
Proof.
  intros Hm Hl. apply contents_unchanged; [done|].
  intros l' Hl'. apply lookup_insert_ne. by intros <-.
Qed.

(** The map [MergeMap] returns and the heap it leaves. *)
Lemma MergeMap_run (m1 m2 : mapref) (h : Heap) :
  valid m1 h → valid m2 h →
  MergeMap m1 m2 h
  = Some (Some (fresh (dom h)),
          <[fresh (dom h) := contents m2 h ∪ contents m1 h]> h).
Proof.
  intros H1 H2. pose proof (is_fresh (dom h)) as Hfresh.
  unfold MergeMap, make.
  rewrite (assignAll_existing _ _ _ ∅) by by rewrite lookup_insert_eq.
  rewrite range_assigned, insert_insert_eq, (right_id_L ∅ (∪)).
  rewrite (contents_insert_fresh m1) by done.
  rewrite (assignAll_existing _ _ _ (contents m1 h)) by by rewrite lookup_insert_eq.
  rewrite range_assigned, insert_insert_eq.
  by rewrite (contents_insert_fresh m2).
Qed.

Lemma contents_merged (m1 m2 : mapref) (h : Heap) :
  contents (Some (fresh (dom h))) (<[fresh (dom h) := contents m2 h ∪ contents m1 h]> h)
  = contents m2 h ∪ contents m1 h.
Proof. cbn. by rewrite lookup_insert_eq. Qed.

(** X6.  [MergeMap] never panics and never returns [nil], not even for two
    [nil] maps.  The map it returns holds, under every key, the entry of
    [m2] if [m2] has one and the entry of [m1] otherwise. *)
Theorem MergeMap_entries (m1 m2 : mapref) (h : Heap) :
  valid m1 h → valid m2 h →
  ∃ cp h', MergeMap m1 m2 h = Some (cp, h')
    ∧ cp ≠ None
    ∧ ∀ k, entry cp k h'
           = match entry m2 k h with Some v => Some v | None => entry m1 k h end.
Proof.
  intros H1 H2. eexists _, _. split; [by apply MergeMap_run|]. split; [done|].
  intros k. rewrite !entry_contents, contents_merged, lookup_union.
  destruct (contents m2 h !! k), (contents m1 h !! k); done.
Qed.

(** X7.  The map [MergeMap] returns is a new one: it is neither [m1] nor
    [m2], and no map that existed before the call is changed by it. *)
Theorem MergeMap_fresh (m1 m2 : mapref) (h : Heap) :
  valid m1 h → valid m2 h →
  ∃ cp h', MergeMap m1 m2 h = Some (cp, h')
    ∧ cp ≠ m1 ∧ cp ≠ m2 ∧ ¬ valid cp h
    ∧ ∀ m, valid m h → contents m h' = contents m h.
Proof.
  intros H1 H2. pose proof (is_fresh (dom h)) as Hfresh.
  eexists _, _. split; [by apply MergeMap_run|].
  repeat split; try (by intros <-); try done.
  intros m Hm. by apply contents_insert_fresh.
Qed.

(** X8.  The merged map always contains [m2] in the sense of
    [MapContains], and it contains [m1] exactly when no key of [m1] has a
    different value in [m2]. *)
Theorem MergeMap_MapContains (m1 m2 : mapref) (h : Heap) :
  valid m1 h → valid m2 h →
  ∃ cp h', MergeMap m1 m2 h = Some (cp, h')
    ∧ MapContains m2 cp h' = true
    ∧ (MapContains m1 cp h' = true
       ↔ ∀ k v1 v2, entry m1 k h = Some v1 → entry m2 k h = Some v2 → v1 = v2).
Proof.
  intros H1 H2. pose proof (is_fresh (dom h)) as Hfresh.
  eexists _, _. split; [by apply MergeMap_run|].
  rewrite !MapContains_index.
  assert (Hidx : ∀ k, index (Some (fresh (dom h)))
                   k (<[fresh (dom h) := contents m2 h ∪ contents m1 h]> h)
                 = default "" ((contents m2 h ∪ contents m1 h) !! k)).
  { intros k. by rewrite index_contents, contents_merged. }
  assert (Hent : ∀ m k, valid m h →
            entry m k (<[fresh (dom h) := contents m2 h ∪ contents m1 h]> h)
            = contents m h !! k).
  { intros m k Hm. by rewrite entry_contents, contents_insert_fresh. }
  split; [|split].
  - intros sk sv. rewrite Hent, Hidx, lookup_union by done. intros ->.
    by destruct (contents m1 h !! sk).
  - intros Hall k v1 v2. rewrite !entry_contents. intros Hk1 Hk2.
    specialize (Hall k v1). rewrite Hent, Hidx, lookup_union, Hk1, Hk2 in Hall by done.
    symmetry. by apply Hall.
  - intros Hall sk sv. rewrite Hent, Hidx, lookup_union by done. intros Hk1.
    destruct (contents m2 h !! sk) as [v2|] eqn:Hk2; rewrite Hk1; cbn; [|done].
    symmetry. apply (Hall sk); by rewrite entry_contents.
Qed.

(** X9.  A [MapPut] into the merged map is not lost and does not reach the
    maps that were merged: afterwards the merged map holds [v] under [k],
    and [m1], [m2] and every other map are as before. *)
Theorem MergeMap_then_MapPut (m1 m2 : mapref) (k v : string) (h : Heap) :
  valid m1 h → valid m2 h →
  ∃ cp h' h'', MergeMap m1 m2 h = Some (cp, h')
    ∧ MapPut cp k v h' = Some h''
    ∧ entry cp k h'' = Some v
    ∧ ∀ m, valid m h → contents m h'' = contents m h.
Proof.
  intros H1 H2. pose proof (is_fresh (dom h)) as Hfresh.
  eexists _, _, _. split; [by apply MergeMap_run|].
  split; [apply MapPut_ref|]. split.
  - cbn. by rewrite lookup_alter_eq, lookup_insert_eq; cbn; rewrite lookup_insert_eq.
  - intros m Hm. apply contents_unchanged; [done|].
    intros l Hl. rewrite lookup_alter_ne, lookup_insert_ne; [done| |]; by intros <-.
Qed.

(** ** [ListEquals] *)

Lemma ListEquals_found_true (x : string) (target : list string) :
  ListEquals_found x target = true ↔ x ∈ target.
Proof.
  induction target as [|y rest IH]; cbn.
  { split; [done|]. intros Hin. by apply elem_of_nil in Hin. }
  rewrite elem_of_cons. destruct (String.eqb_spec x y) as [->|Hne].
  - split; [by left|done].
  - rewrite IH. split; [by right|]. by intros [?|?].
Qed.

Lemma ListEquals_loop_true (src target : list string) :
  ListEquals_loop src target = true ↔ ∀ x, x ∈ src → x ∈ target.
Proof.
  induction src as [|x rest IH]; cbn.
  { split; [|done]. intros _ x Hin. by apply elem_of_nil in Hin. }
  destruct (ListEquals_found x target) eqn:Hfound; cbn.
  - apply ListEquals_found_true in Hfound. rewrite IH. split.
    + intros Hrest y [->|Hin]%elem_of_cons; [done|by apply Hrest].
    + intros Hall y Hin. apply Hall. by apply list_elem_of_further.
  - split; [done|]. intros Hall.
    assert (Hx : x ∈ target) by apply Hall, list_elem_of_here.
    apply ListEquals_found_true in Hx. congruence.
Qed.

(** X10.  [ListEquals] holds exactly when the two slices have the same
    length and every element of [src] occurs somewhere in [target]; how
    often an element occurs is not compared. *)
Theorem ListEquals_length_and_elements (src target : list string) :
  ListEquals src target = true
  ↔ length src = length target ∧ ∀ x, x ∈ src → x ∈ target.
Proof.
  unfold ListEquals. destruct (Nat.eqb_spec (length src) (length target)) as [Hlen|Hlen]; cbn.
  - rewrite ListEquals_loop_true. by split; [|intros [_ ?]].
  - split; [done|]. by intros [? _].
Qed.

(** X11.  When [src] has no element twice, [ListEquals] holds exactly when
    [target] is [src] in some order. *)
Theorem ListEquals_permutation (src target : list string) :
  NoDup src →
  ListEquals src target = true ↔ src ≡ₚ target.
Proof.
  intros Hnd. rewrite ListEquals_length_and_elements. split.
  - intros [Hlen Hall]. apply submseteq_length_Permutation; [|lia].
    by apply NoDup_submseteq.
  - intros Hperm. split; [by rewrite Hperm|].
    intros x. by rewrite Hperm.
Qed.

(** X12.  [ListEquals] holds for every slice and each of its
    rearrangements, but it is not symmetric: with repeated elements it can
    hold one way and fail the other way round. *)
Theorem ListEquals_rearranged_not_symmetric :
  (∀ src target, src ≡ₚ target → ListEquals src target = true)
  ∧ ∃ src target, ListEquals src target = true ∧ ListEquals target src = false.
Proof.
  split.
  - intros src target Hperm. apply ListEquals_length_and_elements.
    split; [by rewrite Hperm|]. intros x. by rewrite Hperm.
  - by exists ["a"; "a"], ["a"; "b"].
Qed.

(** ** [Contains] *)

Lemma Contains_loop_true (obj : string) (l : list string) :
  Contains_loop obj l = true ↔ obj ∈ l.
Proof.
  induction l as [|x rest IH]; cbn.
  { split; [done|]. intros Hin. by apply elem_of_nil in Hin. }
  rewrite elem_of_cons. destruct (String.eqb_spec x obj) as [->|Hne].
  - split; [by left|done].
  - rewrite IH. split; [by right|]. intros [?|?]; [congruence|done].
Qed.

(** X13.  For a string, [Contains] finds it in a slice exactly when it is
    an element, and in a map exactly when it is a key, whatever the value
    under it; a [nil] map has no key, and a target of another kind contains
    nothing. *)
Theorem Contains_element_or_key (obj : string) (h : Heap) :
  (∀ l, Contains obj (TStrings l) h = Some true ↔ obj ∈ l)
  ∧ (∀ m, Contains obj (TStringMap m) h = Some true ↔ is_Some (entry m obj h))
  ∧ Contains obj (TStringMap None) h = Some false
  ∧ Contains obj TOther h = Some false.
Proof.
  split; [|split; [|done]].
  - intros l. cbn. rewrite <- Contains_loop_true.
    split; [by intros [= ->]|by intros ->].
  - intros m. cbn. destruct (entry m obj h); split; try done.
Qed.

(** X14.  After [MapPut(m, k, v)] the key [k] is found by [Contains] in [m]
    exactly when [m] was not [nil]. *)
Theorem MapPut_then_Contains (m : mapref) (k v : string) (h : Heap) :
  valid m h →
  ∃ h', MapPut m k v h = Some h'
    ∧ Contains k (TStringMap m) h' = Some (bool_decide (m ≠ None)).
Proof.
  intros Hvalid. destruct m as [l|].
  - eexists. split; [apply MapPut_ref|].
    cbn in Hvalid. apply elem_of_dom in Hvalid as [o Ho].
    cbn. by rewrite lookup_alter_eq, Ho; cbn; rewrite lookup_insert_eq.
  - eexists. split; [apply MapPut_nil|]. done.
Qed.

(** * More on package cluster *)

Lemma slept_nil : slept [] = 0.
Proof. done. Qed.

Lemma slept_cons (c : Call) (t : list Call) :
  slept (c :: t) = match c with TimeSleep d => d | _ => 0 end + slept t.
Proof. unfold slept. by destruct c. Qed.

Lemma quot_six_negative (timeoutSec : Z) : timeoutSec <= -6 → Z.quot timeoutSec 6 <= -1.
Proof.
  intros Hneg. pose proof (Z.quot_rem' timeoutSec 6).
  pose proof (Z.rem_bound_pos_neg timeoutSec 6 eq_refl). lia.
Qed.

Lemma quot_six_bounds (timeoutSec : Z) :
  0 <= timeoutSec →
  0 <= Z.quot timeoutSec 6 ∧ 6 * Z.quot timeoutSec 6 <= timeoutSec
  ∧ timeoutSec < 6 * Z.quot timeoutSec 6 + 6.
Proof.
  intros Hpos. pose proof (Z.quot_rem' timeoutSec 6).
  pose proof (Z.rem_bound_pos_pos timeoutSec 6 eq_refl Hpos).
  pose proof (Z.quot_pos timeoutSec 6 Hpos eq_refl). lia.
Qed.

Ltac routine' := rewrite ?slept_cons, ?slept_nil; routine.

Section MoreFacts.

Context {S : Type} {K : Kubernetes S} {H : Helpers}.

(** ** The waits *)

Lemma waitPodReady_fuel_more (fuel : nat) (name namespace : string) (timeoutSec : Z) :
  ∀ (times : Z) (w : World S),
    (budget (Z.quot timeoutSec interval) times ≤ fuel)%nat →
    let x := waitPodReady_fuel fuel name namespace timeoutSec times w in
    (∀ err, inr err ∈ fetched (calls x) →
       result x = Done (None, Some err) ∧ last (fetched (calls x)) = Some (inr err))
    ∧ (∀ pod, result x = Done (Some pod, None) →
         last (fetched (calls x)) = Some (inl pod))
    ∧ slept (calls x) <= 6 * Z.max 0 (Z.quot timeoutSec interval - times + 1)
    ∧ (forallb notYetRunning (fetched (calls x)) = true →
       slept (calls x) = 6 * Z.max 0 (Z.quot timeoutSec interval - times + 1)).
Proof.
  induction fuel as [|fuel IH]; intros times w Hfuel.
  { unfold budget in Hfuel. lia. }
  destruct (Z_gt_le_dec times (Z.quot timeoutSec interval)) as [Hover|Hin].
  { rewrite waitPodReady_over by done. cbn. routine'. }
  destruct (Get namespace name w) as [[pod|err] w1] eqn:Hget.
  2: { rewrite (waitPodReady_error _ _ _ _ _ _ _ _ Hin Hget). cbn. routine'. }
  destruct (decide (Phase pod = PodRunning)) as [Hphase|Hphase].
  - rewrite (waitPodReady_ready _ _ _ _ _ _ _ _ Hin Hget Hphase). cbn.
    rewrite (bool_decide_eq_true_2 _ Hphase). routine'.
    by intros ? [= ->].
  - rewrite (waitPodReady_retry _ _ _ _ _ _ _ _ Hin Hget Hphase).
    specialize (IH (times + 1) (elapse interval w1) (budget_step _ _ _ Hin Hfuel)).
    cbn zeta in *.
    destruct IH as (Herr & Hok & Hslept & Hall).
    unfold result, calls, interval in *. cbn.
    rewrite (bool_decide_eq_false_2 _ Hphase). routine'.
    + by apply Herr.
    + match goal with Hm : inr ?e ∈ _ |- _ => destruct (Herr e Hm) as [_ Hlast] end.
      unfold fetched in Hlast. by rewrite last_cons, Hlast.
    + intros pod' Hres. specialize (Hok pod' Hres). unfold fetched in Hok.
      by rewrite last_cons, Hok.
    + intros Hf. rewrite (Hall Hf). lia.
Qed.

Lemma waitPodsReady_fuel_more (fuel : nat) (labels : gomap) (namespace : string)
    (timeoutSec : Z) :
  ∀ (times : Z) (w : World S),
    (budget (Z.quot timeoutSec interval) times ≤ fuel)%nat →
    let x := waitPodsReady_fuel fuel labels namespace timeoutSec times w in
    (∀ err, inr err ∈ listed (calls x) →
       result x = Done (None, Some err) ∧ last (listed (calls x)) = Some (inr err))
    ∧ (∀ ps, result x = Done (ps, None) →
         ∃ items, last (listed (calls x)) = Some (inl items)
                  ∧ ps = Some (filterRunningPods items)
                  ∧ (count isList (calls x)
                     ≤ Z.to_nat (Z.quot timeoutSec interval - times + 1))%nat)
    ∧ slept (calls x) <= Z.max 0 (Z.quot timeoutSec interval - times + 1)
    ∧ (forallb nothingReady (listed (calls x)) = true →
       slept (calls x) = Z.max 0 (Z.quot timeoutSec interval - times + 1)).
Proof.
  induction fuel as [|fuel IH]; intros times w Hfuel.
  { unfold budget in Hfuel. lia. }
  destruct (List namespace labels w) as [[items|err] w1] eqn:Hlist.
  2: { rewrite (waitPodsReady_error _ _ _ _ _ _ _ _ Hlist). cbn. routine'. }
  destruct (Z_gt_le_dec times (Z.quot timeoutSec interval)) as [Hover|Hin].
  { rewrite (waitPodsReady_over _ _ _ _ _ _ _ _ Hlist Hover). cbn. routine'. }
  destruct (filterRunningPods items) as [|pod ready] eqn:Hready.
  - rewrite (waitPodsReady_retry _ _ _ _ _ _ _ _ Hlist Hin Hready).
    specialize (IH (times + 1) (elapse 1 w1) (budget_step _ _ _ Hin Hfuel)).
    cbn zeta in *.
    destruct IH as (Herr & Hok & Hslept & Hall).
    unfold result, calls in *. cbn. rewrite Hready. routine'.
    + by apply Herr.
    + match goal with Hm : inr ?e ∈ _ |- _ => destruct (Herr e Hm) as [_ Hlast] end.
      unfold listed in Hlast. by rewrite last_cons, Hlast.
    + intros ps Hps. destruct (Hok ps Hps) as (items' & Hlast & -> & Hn).
      exists items'. unfold listed in Hlast. rewrite last_cons, Hlast. routine.
    + intros Hf. rewrite (Hall Hf). lia.
  - assert (Hsome : filterRunningPods items ≠ []) by by rewrite Hready.
    rewrite (waitPodsReady_ready _ _ _ _ _ _ _ _ Hlist Hin Hsome). cbn.
    rewrite Hready. routine'.
    intros ps [= <-]. exists items. rewrite Hready. routine.
Qed.

Lemma waitPodTerminate_fuel_more (fuel : nat) (name namespace : string) :
  ∀ (times : Z) (w : World S),
    (budget 10 times ≤ fuel)%nat →
    let x := waitPodTerminate_fuel fuel name namespace times w in
    (∀ pod, result x = Done (Some pod, None) →
       last (fetched (calls x)) = Some (inl pod))
    ∧ slept (calls x) = 6 * Z.of_nat (count isGet (calls x)).
Proof.
  induction fuel as [|fuel IH]; intros times w Hfuel.
  { unfold budget in Hfuel. lia. }
  destruct (Z_gt_le_dec times 10) as [Hover|Hin].
  { rewrite waitPodTerminate_over by done. cbn. routine'. }
  destruct (Get namespace name (elapse interval w)) as [[pod|err] w1] eqn:Hget.
  2: { rewrite (waitPodTerminate_error _ _ _ _ _ _ _ Hin Hget). cbn. routine'. }
  destruct (DeletionTimestamp pod) as [ts|] eqn:Hdel.
  - rewrite (waitPodTerminate_retry _ _ _ _ _ _ _ _ Hin Hget Hdel).
    specialize (IH (times + 1) w1 (budget_step _ _ _ Hin Hfuel)).
    cbn zeta in *. destruct IH as (Hok & Hslept).
    unfold result, calls, interval in *. cbn. routine'.
    intros pod' Hres. specialize (Hok pod' Hres). unfold fetched in Hok.
    by rewrite last_cons, Hok.
  - rewrite (waitPodTerminate_present _ _ _ _ _ _ _ Hin Hget Hdel). cbn. routine'.
    by intros ? [= ->].
Qed.

(** X15.  [WaitPodReady] does not retry a fetch that fails: the failed
    fetch is its last call on the store and its error is the result.  And
    the pod it returns on success is the one its last fetch answered. *)
Theorem WaitPodReady_last_fetch_decides (name namespace : string) (timeoutSec : Z)
    (w : World S) :
  let x := WaitPodReady name namespace timeoutSec w in
  (∀ err, inr err ∈ fetched (calls x) →
     result x = Done (None, Some err) ∧ last (fetched (calls x)) = Some (inr err))
  ∧ (∀ pod, result x = Done (Some pod, None) →
       last (fetched (calls x)) = Some (inl pod)).
Proof.
  destruct (waitPodReady_fuel_more _ name namespace timeoutSec 0 w (le_n _))
    as (Herr & Hok & _).
  by split.
Qed.

(** X16.  For a timeout that is not negative, [WaitPodReady] spends at most
    [timeoutSec + 6] seconds asleep, and more than [timeoutSec] seconds
    when every fetch goes through and answers a pod short of [Running]. *)
Theorem WaitPodReady_time_asleep (name namespace : string) (timeoutSec : Z)
    (w : World S) :
  0 <= timeoutSec →
  let x := WaitPodReady name namespace timeoutSec w in
  slept (calls x) <= timeoutSec + 6
  ∧ (forallb notYetRunning (fetched (calls x)) = true → timeoutSec < slept (calls x)).
Proof.
  intros Hpos.
  destruct (waitPodReady_fuel_more _ name namespace timeoutSec 0 w (le_n _))
    as (_ & _ & Hslept & Hall).
  pose proof (quot_six_bounds timeoutSec Hpos).
  unfold WaitPodReady, waitPodReady, interval in *. cbn zeta.
  split; [lia|]. intros Hf. rewrite (Hall Hf). lia.
Qed.

(** X17.  [WaitPodsReady] sleeps at most [max 0 (timeoutSec / 6 + 1)]
    seconds in all, and exactly that long when every listing goes through
    with nothing ready: for a timeout that is not negative, it gives up
    after no more than a sixth of the timeout plus one second. *)
Theorem WaitPodsReady_time_asleep (labels : gomap) (namespace : string) (timeoutSec : Z)
    (w : World S) :
  let x := WaitPodsReady labels namespace timeoutSec w in
  slept (calls x) <= Z.max 0 (Z.quot timeoutSec 6 + 1)
  ∧ (forallb nothingReady (listed (calls x)) = true →
     slept (calls x) = Z.max 0 (Z.quot timeoutSec 6 + 1))
  ∧ (0 <= timeoutSec → 6 * slept (calls x) <= timeoutSec + 6).
Proof.
  destruct (waitPodsReady_fuel_more _ labels namespace timeoutSec 0 w (le_n _))
    as (_ & _ & Hslept & Hall).
  unfold WaitPodsReady, waitPodsReady, interval in *. cbn zeta.
  split; [lia|]. split.
  - intros Hf. rewrite (Hall Hf). lia.
  - intros Hpos. pose proof (quot_six_bounds timeoutSec Hpos). lia.
Qed.

(** X18.  [WaitPodsReady] does not retry a listing that fails: its error is
    the result.  When it succeeds, it returns what [filterRunningPods]
    keeps of its last listing, and that listing is one of the first
    [max 0 (timeoutSec / 6 + 1)]: the listing made after those only picks
    the error, whatever is running in it. *)
Theorem WaitPodsReady_last_listing_decides (labels : gomap) (namespace : string)
    (timeoutSec : Z) (w : World S) :
  let x := WaitPodsReady labels namespace timeoutSec w in
  (∀ err, inr err ∈ listed (calls x) →
     result x = Done (None, Some err) ∧ last (listed (calls x)) = Some (inr err))
  ∧ (∀ ps, result x = Done (ps, None) →
       ∃ items, last (listed (calls x)) = Some (inl items)
                ∧ ps = Some (filterRunningPods items)
                ∧ Z.of_nat (count isList (calls x)) <= Z.max 0 (Z.quot timeoutSec 6 + 1)).
Proof.
  destruct (waitPodsReady_fuel_more _ labels namespace timeoutSec 0 w (le_n _))
    as (Herr & Hok & _).
  unfold WaitPodsReady, waitPodsReady, interval in *. cbn zeta.
  split; [done|]. intros ps Hps.
  destruct (Hok ps Hps) as (items & Hlast & -> & Hn).
  exists items. repeat split; [done|lia].
Qed.

(** X19.  With [timeoutSec <= -6] the quotient is negative and the counter
    exceeds it from the start: [WaitPodReady] fails without a single call,
    and [WaitPodsReady] fails after its first listing, even if that
    listing holds running pods. *)
Theorem waits_with_negative_timeout (name namespace : string) (labels : gomap)
    (timeoutSec : Z) (w : World S) :
  timeoutSec <= -6 →
  WaitPodReady name namespace timeoutSec w
  = (Done (None, Some (Errorf "pod %s failed to start" [AString name])), w, [])
  ∧ ∀ items w1,
      List namespace labels w = (inl items, w1) →
      WaitPodsReady labels namespace timeoutSec w
      = (Done (None, Some (exhausted labels items)), w1,
         [PodsList labels namespace (inl items)]).
Proof.
  intros Hneg. pose proof (quot_six_negative timeoutSec Hneg) as Hq.
  unfold WaitPodReady, waitPodReady, WaitPodsReady, waitPodsReady, budget. split.
  - apply waitPodReady_over. unfold interval. lia.
  - intros items w1 Hlist. apply waitPodsReady_over; [done|]. unfold interval. lia.
Qed.

(** X20.  The pod that [WaitPodTerminate] returns without error is the one
    its last fetch answered.  Its calls are attempts that each sleep 6
    seconds and then fetch the pod, so the seconds asleep are 6 times the
    fetches, at most 66 in all. *)
Theorem WaitPodTerminate_last_fetch_and_time (name namespace : string) (w : World S) :
  let x := WaitPodTerminate name namespace w in
  (∀ pod, result x = Done (Some pod, None) → last (fetched (calls x)) = Some (inl pod))
  ∧ sleepThenFetch 6 name namespace (calls x) = true
  ∧ slept (calls x) = 6 * Z.of_nat (count isGet (calls x))
  ∧ slept (calls x) <= 66.
Proof.
  destruct (waitPodTerminate_fuel_more _ name namespace 0 w (le_n _)) as (Hok & Hslept).
  destruct (waitPodTerminate_fuel_run _ name namespace 0 w (le_n _))
    as (_ & Hshape & _ & Hcount & _).
  unfold WaitPodTerminate, waitPodTerminate, interval in *. cbn zeta.
  change (Z.to_nat (10 - 0 + 1)) with 11%nat in *.
  repeat split; [done|done|done|lia].
Qed.

(** ** The reference count *)

Lemma Atoi_empty : strconv.Atoi "" = inr strconv.ErrSyntax.
Proof. done. Qed.

(** X21.  When the ref-count annotation of the fetched pod does not parse
    as an integer, [IncreasePodRef] returns the parse error and makes no
    call besides the fetch.  A pod without the annotation, or without any
    annotations at all, is such a pod: the empty string is what gets
    parsed. *)
Theorem IncreasePodRef_unparsable (name namespace : string) (w w1 : World S) (pod : Pod) :
  Get namespace name w = (inl pod, w1) →
  (∀ e, strconv.Atoi (index (Annotations pod) KtRefCount (heap w1)) = inr e →
     IncreasePodRef name namespace w
     = (Done (Some (NumError "Atoi" (index (Annotations pod) KtRefCount (heap w1)) e)),
        w1, [PodsGet name namespace (inl pod)]))
  ∧ (entry (Annotations pod) KtRefCount (heap w1) = None →
     IncreasePodRef name namespace w
     = (Done (Some (NumError "Atoi" "" strconv.ErrSyntax)), w1,
        [PodsGet name namespace (inl pod)])).
Proof.
  intros Hget.
  assert (Hun : ∀ e, strconv.Atoi (index (Annotations pod) KtRefCount (heap w1)) = inr e →
     IncreasePodRef name namespace w
     = (Done (Some (NumError "Atoi" (index (Annotations pod) KtRefCount (heap w1)) e)),
        w1, [PodsGet name namespace (inl pod)])).
  { intros e He. unfold IncreasePodRef, bind, GetPod, mapIndex.
    rewrite Hget. cbn. by rewrite He. }
  split; [done|]. intros Hnone.
  assert (Hidx : index (Annotations pod) KtRefCount (heap w1) = "")
    by (unfold index; by rewrite Hnone).
  specialize (Hun strconv.ErrSyntax). rewrite Hidx in Hun. by apply Hun.
Qed.

(** X22.  When the annotation parses as [n], [IncreasePodRef] writes
    [n + 1] (wrapped to 64 bits) under the same key of the pod's
    annotations, leaves the other annotations alone, sends the pod to the
    store once and returns the error of that update, if any. *)
Theorem IncreasePodRef_parsable (name namespace : string) (w w1 : World S) (pod : Pod)
    (value : string) (n : Z) :
  Get namespace name w = (inl pod, w1) →
  entry (Annotations pod) KtRefCount (heap w1) = Some value →
  strconv.Atoi value = inl n →
  ∃ h2,
    entry (Annotations pod) KtRefCount h2 = Some (strconv.Itoa (wrap64 (n + 1)))
    ∧ (∀ k, k ≠ KtRefCount →
         entry (Annotations pod) k h2 = entry (Annotations pod) k (heap w1))
    ∧ ∀ r w3,
        Update (Namespace pod) pod (mkWorld h2 (store w1)) = (r, w3) →
        IncreasePodRef name namespace w
        = (Done (match r with inr err => Some err | inl _ => None end), w3,
           [PodsGet name namespace (inl pod); PodsUpdate pod r]).
Proof.
  intros Hget Hentry Hatoi.
  destruct (Annotations pod) as [l|] eqn:Hann; [|done].
  cbn in Hentry. destruct (heap w1 !! l) as [o|] eqn:Ho; [|done].
  exists (alter (<[KtRefCount := strconv.Itoa (wrap64 (n + 1))]>) l (heap w1)).
  split; [|split].
  - cbn. by rewrite lookup_alter_eq, Ho; cbn; rewrite lookup_insert_eq.
  - intros k Hk. cbn. rewrite lookup_alter_eq, Ho. cbn. by rewrite lookup_insert_ne.
  - intros r w3 Hupd.
    unfold IncreasePodRef, bind, GetPod, mapIndex, mapAssign, UpdatePod, index.
    rewrite Hget. cbn. rewrite Hann. cbn. rewrite Ho, Hentry. cbn.
    rewrite Hatoi. cbn. by rewrite Hupd.
Qed.

(** X23.  [IncreasePodRef] never panics: it assigns into the annotations
    only after the count parsed, which it cannot when the annotations are
    [nil].  It fetches once and updates at most once. *)
Theorem IncreasePodRef_never_panics (name namespace : string) (w : World S) :
  let x := IncreasePodRef name namespace w in
  (∃ v, result x = Done v)
  ∧ count isGet (calls x) = 1%nat
  ∧ (count isUpdate (calls x) ≤ 1)%nat.
Proof.
  unfold IncreasePodRef, bind, GetPod, mapIndex, mapAssign, UpdatePod.
  destruct (Get namespace name w) as [[pod|err] w1]; cbn; [|by routine].
  destruct (strconv.Atoi (index (Annotations pod) KtRefCount (heap w1))) as [n|e] eqn:Hatoi;
    cbn; [|by routine].
  destruct (Annotations pod) as [l|]; cbn.
  - destruct (Update (Namespace pod) _ _) as [r w3]. cbn. routine.
  - change (index None KtRefCount (heap w1)) with "" in Hatoi.
    by rewrite Atoi_empty in Hatoi.
Qed.

(** X24.  When the annotation is not ["1"] and [decreaseRef] accepts it
    with the new count, [DecreasePodRef] puts the count into the pod's
    annotations with [MapPut], sends the pod to the store once and returns
    [cleanup = false] with the error of that update, if any.  If the pod
    has annotations, the count is among them when the pod is sent; if its
    annotations are [nil], the count is lost: the pod is sent without it. *)
Theorem DecreasePodRef_count_written (name namespace : string) (w w1 : World S)
    (pod : Pod) (count : string) :
  Get namespace name w = (inl pod, w1) →
  valid (Annotations pod) (heap w1) →
  index (Annotations pod) KtRefCount (heap w1) ≠ "1" →
  decreaseRef (index (Annotations pod) KtRefCount (heap w1)) = (count, None) →
  ∃ h2,
    MapPut (Annotations pod) KtRefCount count (heap w1) = Some h2
    ∧ entry (Annotations pod) KtRefCount h2
      = match Annotations pod with Some _ => Some count | None => None end
    ∧ ∀ r w3,
        Update (Namespace pod) pod (mkWorld h2 (store w1)) = (r, w3) →
        DecreasePodRef name namespace w
        = (Done (false, match r with inr err => Some err | inl _ => None end), w3,
           [PodsGet name namespace (inl pod); PodsUpdate pod r]).
Proof.
  intros Hget Hvalid Hne Hdec.
  assert (Hput : ∃ h2, MapPut (Annotations pod) KtRefCount count (heap w1) = Some h2
            ∧ entry (Annotations pod) KtRefCount h2
              = match Annotations pod with Some _ => Some count | None => None end).
  { destruct (Annotations pod) as [l|].
    - eexists. split; [apply MapPut_ref|].
      cbn in Hvalid. apply elem_of_dom in Hvalid as [o Ho].
      cbn. by rewrite lookup_alter_eq, Ho; cbn; rewrite lookup_insert_eq.
    - eexists. split; [apply MapPut_nil|done]. }
  destruct Hput as (h2 & Hput & Hentry). exists h2. split; [done|]. split; [done|].
  intros r w3 Hupd.
  unfold DecreasePodRef, bind, GetPod, mapIndex, callMapPut, UpdatePod.
  rewrite Hget. cbn.
  destruct (String.eqb_spec (index (Annotations pod) KtRefCount (heap w1)) "1")
    as [?|_]; [done|].
  rewrite Hdec. cbn. rewrite Hput. cbn. by rewrite Hupd.
Qed.

(** X25.  [DecreasePodRef] asks for a cleanup in one case only: whenever it
    returns [cleanup = true], the error is nil, the fetch was its only
    call, and the ref-count annotation of the fetched pod is ["1"]. *)
Theorem DecreasePodRef_cleanup_only_for_one (name namespace : string) (w : World S)
    (err : option error) :
  let x := DecreasePodRef name namespace w in
  result x = Done (true, err) →
  err = None
  ∧ ∃ pod, calls x = [PodsGet name namespace (inl pod)]
           ∧ index (Annotations pod) KtRefCount (heap (after x)) = "1".
Proof.
  unfold DecreasePodRef, bind, GetPod, mapIndex, callMapPut, UpdatePod.
  destruct (Get namespace name w) as [[pod|e] w1]; cbn; [|done].
  destruct (String.eqb_spec (index (Annotations pod) KtRefCount (heap w1)) "1")
    as [Hone|_]; cbn.
  - intros [= <-]. eauto.
  - destruct (decreaseRef _) as [count [e2|]]; cbn; [done|].
    destruct (MapPut _ _ _ _); cbn; [|done].
    by destruct (Update _ _ _).
Qed.

(** X26.  [DecreasePodRef] never panics.  It fetches once and updates at
    most once, and when the fetch fails it returns [cleanup = false] with
    the error of the fetch. *)
Theorem DecreasePodRef_never_panics (name namespace : string) (w : World S) :
  let x := DecreasePodRef name namespace w in
  (∃ v, result x = Done v)
  ∧ count isGet (calls x) = 1%nat
  ∧ (count isUpdate (calls x) ≤ 1)%nat
  ∧ (∀ e, fetched (calls x) = [inr e] → result x = Done (false, Some e)).
Proof.
  unfold DecreasePodRef, bind, GetPod, mapIndex, callMapPut, UpdatePod.
  destruct (Get namespace name w) as [[pod|e] w1]; cbn.
  2: { routine. by intros ? [= ->]. }
  destruct (String.eqb (index (Annotations pod) KtRefCount (heap w1)) "1"); cbn.
  { routine. }
  destruct (decreaseRef _) as [count [e2|]]; cbn.
  { routine. }
  assert (Hput : ∃ h2, MapPut (Annotations pod) KtRefCount count (heap w1) = Some h2).
  { destruct (Annotations pod); eexists; [apply MapPut_ref|apply MapPut_nil]. }
  destruct Hput as [h2 ->]. cbn.
  destruct (Update _ _ _) as [r w3]. cbn. routine.
Qed.

(** ** [ExecInPod] *)

(** X27.  [ExecInPod] makes one call on the transport and returns both
    buffers trimmed and then stripped of colour.  An error of the
    transport is returned as it is, whatever stderr holds, and the error is
    nil exactly when the transport reported none and no failure text is
    found in the cleaned stderr. *)
Theorem ExecInPod_error_cases (containerName podName namespace : string)
    (cmd : list string) (w w1 : World S) (stdout stderr : string) (err : option error) :
  Stream containerName podName namespace cmd w = ((stdout, stderr, err), w1) →
  ∃ err',
    ExecInPod containerName podName namespace cmd w
    = (Done (RemoveColor (strings.TrimSpace stdout),
             RemoveColor (strings.TrimSpace stderr), err'), w1,
       [ExecStream containerName podName namespace cmd])
    ∧ (∀ e, err = Some e → err' = Some e)
    ∧ (err' = None
       ↔ err = None ∧ ExtractErrorMessage (RemoveColor (strings.TrimSpace stderr)) = "").
Proof.
  intros Hstream. unfold ExecInPod, bind, execute. rewrite Hstream. cbn.
  eexists. split; [done|].
  destruct err as [e|]; cbn.
  - split; [done|]. split; [done|by intros [? _]].
  - split; [done|].
    destruct (String.eqb_spec
                (ExtractErrorMessage (RemoveColor (strings.TrimSpace stderr))) "")
      as [->|Hne]; cbn; [done|].
    split; [done|]. by intros [_ ?].
Qed.

End MoreFacts.

(** ** The further properties at concrete inputs *)

Lemma twoMaps_valid : valid (Some 1%positive) twoMaps ∧ valid (Some 2%positive) twoMaps.
Proof. split; unfold valid; rewrite elem_of_dom; eexists; by vm_compute. Qed.

Lemma twoMaps_no_empty_value (sk : string) : entry (Some 1%positive) sk twoMaps ≠ Some "".
Proof.
  change ((({[ "a" := "1"; "b" := "2" ]} : gomap) !! sk) ≠ Some "").
  destruct (decide (sk = "a")) as [->|Ha]; [done|].
  destruct (decide (sk = "b")) as [->|Hb]; [done|].
  by rewrite lookup_insert_ne, lookup_singleton_ne.
Qed.

Lemma MapContains_inclusion_witness :
  MapContains (Some 1%positive) (Some 2%positive) twoMaps = true
  ↔ contents (Some 1%positive) twoMaps ⊆ contents (Some 2%positive) twoMaps.
Proof.
  apply (MapContains_inclusion (Some 1%positive) (Some 2%positive) twoMaps).
  exact twoMaps_no_empty_value.
Defined.

Lemma MapEquals_same_entries_witness :
  MapEquals (Some 1%positive) (Some 1%positive) twoMaps = true
  ↔ contents (Some 1%positive) twoMaps = contents (Some 1%positive) twoMaps.
Proof.
  apply (MapEquals_same_entries (Some 1%positive) (Some 1%positive) twoMaps).
  exact twoMaps_no_empty_value.
Defined.

Lemma MapEquals_empty_values_witness :
  MapEquals (Some 1%positive) (Some 2%positive) emptyValued = true.
Proof.
  apply (MapEquals_empty_values (Some 1%positive) (Some 2%positive) emptyValued).
  - intros sk sv. change ((({[ "a" := "" ]} : gomap) !! sk) = Some sv → sv = "").
    destruct (decide (sk = "a")) as [->|Ha].
    + by intros [= <-].
    + by rewrite lookup_singleton_ne.
  - intros sk. change (is_Some (({[ "a" := "" ]} : gomap) !! sk)
                       → ({[ "b" := "x" ]} : gomap) !! sk = None).
    destruct (decide (sk = "a")) as [->|Ha].
    + done.
    + rewrite lookup_singleton_ne by done. by intros [? [=]].
  - by vm_compute.
Defined.

Lemma MergeMap_entries_witness :
  ∃ cp h', MergeMap (Some 1%positive) (Some 2%positive) twoMaps = Some (cp, h')
    ∧ cp ≠ None
    ∧ ∀ k, entry cp k h'
           = match entry (Some 2%positive) k twoMaps with
             | Some v => Some v
             | None => entry (Some 1%positive) k twoMaps
             end.
Proof.
  apply (MergeMap_entries (Some 1%positive) (Some 2%positive) twoMaps);
    apply twoMaps_valid.
Defined.

Lemma MergeMap_fresh_witness :
  ∃ cp h', MergeMap (Some 1%positive) (Some 2%positive) twoMaps = Some (cp, h')
    ∧ cp ≠ Some 1%positive ∧ cp ≠ Some 2%positive ∧ ¬ valid cp twoMaps
    ∧ ∀ m, valid m twoMaps → contents m h' = contents m twoMaps.
Proof.
  apply (MergeMap_fresh (Some 1%positive) (Some 2%positive) twoMaps);
    apply twoMaps_valid.
Defined.

Lemma MergeMap_MapContains_witness :
  ∃ cp h', MergeMap (Some 1%positive) (Some 2%positive) twoMaps = Some (cp, h')
    ∧ MapContains (Some 2%positive) cp h' = true
    ∧ (MapContains (Some 1%positive) cp h' = true
       ↔ ∀ k v1 v2, entry (Some 1%positive) k twoMaps = Some v1 →
                    entry (Some 2%positive) k twoMaps = Some v2 → v1 = v2).
Proof.
  apply (MergeMap_MapContains (Some 1%positive) (Some 2%positive) twoMaps);
    apply twoMaps_valid.
Defined.

Lemma MergeMap_then_MapPut_witness :
  ∃ cp h' h'', MergeMap (Some 1%positive) (Some 2%positive) twoMaps = Some (cp, h')
    ∧ MapPut cp "c" "4" h' = Some h''
    ∧ entry cp "c" h'' = Some "4"
    ∧ ∀ m, valid m twoMaps → contents m h'' = contents m twoMaps.
Proof.
  apply (MergeMap_then_MapPut (Some 1%positive) (Some 2%positive) "c" "4" twoMaps);
    apply twoMaps_valid.
Defined.

(** The two maps merged: [b] takes the value of the second map, and the
    first map is not contained in the result. *)
Example MergeMap_twoMaps :
  (MergeMap (Some 1%positive) (Some 2%positive) twoMaps
   ≫= λ '(cp, h'), Some (cp, contents cp h', MapContains (Some 1%positive) cp h'))
  = Some (Some 3%positive, {[ "a" := "1"; "b" := "3" ]}, false).
Proof. by vm_compute. Qed.

Lemma ListEquals_permutation_witness :
  ListEquals ["a"; "b"; "c"] ["c"; "a"; "b"] = true
  ↔ ["a"; "b"; "c"] ≡ₚ ["c"; "a"; "b"].
Proof.
  apply (ListEquals_permutation ["a"; "b"; "c"] ["c"; "a"; "b"]).
  apply (bool_decide_unpack (NoDup ["a"; "b"; "c"])). by vm_compute.
Defined.

Lemma MapPut_then_Contains_witness :
  ∃ h', MapPut (Some 2%positive) "a" "5" twoMaps = Some h'
    ∧ Contains "a" (TStringMap (Some 2%positive)) h'
      = Some (bool_decide (Some 2%positive ≠ None)).
Proof.
  apply (MapPut_then_Contains (Some 2%positive) "a" "5" twoMaps). apply twoMaps_valid.
Defined.

Lemma WaitPodReady_time_asleep_witness :
  slept (calls (WaitPodReady (K := stuckPending) "shadow" "default" 30 start)) <= 30 + 6
  ∧ (forallb notYetRunning
       (fetched (calls (WaitPodReady (K := stuckPending) "shadow" "default" 30 start)))
     = true →
     30 < slept (calls (WaitPodReady (K := stuckPending) "shadow" "default" 30 start))).
Proof.
  apply (WaitPodReady_time_asleep (K := stuckPending) "shadow" "default" 30 start). lia.
Defined.

(** Half a minute of timeout: the single wait sleeps 36 seconds on a pod
    that never runs, the set wait 6 seconds on a selector that never
    matches. *)
Example waits_asleep_for_thirty :
  slept (calls (WaitPodReady (K := stuckPending) "shadow" "default" 30 start)) = 36
  ∧ slept (calls (WaitPodsReady (K := nothingListed) (H := helpers)
                    {[ "app" := "shadow" ]} "default" 30 start)) = 6.
Proof. by vm_compute. Qed.

Lemma waits_with_negative_timeout_witness :
  WaitPodReady (K := oneOfTwoRunning) "shadow" "default" (-6) start
  = (Done (None, Some (Errorf "pod %s failed to start" [AString "shadow"])), start, [])
  ∧ ∀ items w1,
      List (Kubernetes := oneOfTwoRunning) "default" {[ "app" := "shadow" ]} start
      = (inl items, w1) →
      WaitPodsReady (K := oneOfTwoRunning) (H := helpers) {[ "app" := "shadow" ]}
        "default" (-6) start
      = (Done (None, Some (exhausted {[ "app" := "shadow" ]} items)), w1,
         [PodsList {[ "app" := "shadow" ]} "default" (inl items)]).
Proof.
  apply (waits_with_negative_timeout (K := oneOfTwoRunning) (H := helpers)
           "shadow" "default" {[ "app" := "shadow" ]} (-6) start).
  lia.
Defined.

Lemma IncreasePodRef_unparsable_witness :
  (∀ e, strconv.Atoi (index None "kt-ref-count" ∅) = inr e →
     IncreasePodRef (K := stuckPending) (H := helpers) "shadow" "default" start
     = (Done (Some (NumError "Atoi" (index None "kt-ref-count" ∅) e)),
        mkWorld ∅ 1%nat,
        [PodsGet "shadow" "default" (inl (pod "shadow" PodPending None))]))
  ∧ (entry None "kt-ref-count" ∅ = None →
     IncreasePodRef (K := stuckPending) (H := helpers) "shadow" "default" start
     = (Done (Some (NumError "Atoi" "" strconv.ErrSyntax)), mkWorld ∅ 1%nat,
        [PodsGet "shadow" "default" (inl (pod "shadow" PodPending None))])).
Proof.
  apply (IncreasePodRef_unparsable (K := stuckPending) (H := helpers)
           "shadow" "default" start (mkWorld ∅ 1%nat) (pod "shadow" PodPending None)).
  reflexivity.
Defined.

Lemma IncreasePodRef_parsable_witness :
  ∃ h2,
    entry (Some 1%positive) "kt-ref-count" h2 = Some (strconv.Itoa (wrap64 (2 + 1)))
    ∧ (∀ k, k ≠ "kt-ref-count" →
         entry (Some 1%positive) k h2 = entry (Some 1%positive) k (heap (withCount "2")))
    ∧ ∀ r w3,
        Update (Kubernetes := countedStore) "default" counted (mkWorld h2 1%nat) = (r, w3) →
        IncreasePodRef (K := countedStore) (H := helpers) "shadow" "default" (withCount "2")
        = (Done (match r with inr err => Some err | inl _ => None end), w3,
           [PodsGet "shadow" "default" (inl counted); PodsUpdate counted r]).
Proof.
  apply (IncreasePodRef_parsable (K := countedStore) (H := helpers)
           "shadow" "default" (withCount "2") (mkWorld (heap (withCount "2")) 1%nat)
           counted "2" 2).
  - reflexivity.
  - by vm_compute.
  - by vm_compute.
Defined.

(** Two references become three, and the pod is sent to the store. *)
Example IncreasePodRef_two_references :
  result (IncreasePodRef (K := countedStore) (H := helpers) "shadow" "default"
            (withCount "2")) = Done None
  ∧ entry (Some 1%positive) "kt-ref-count"
      (heap (after (IncreasePodRef (K := countedStore) (H := helpers) "shadow" "default"
                      (withCount "2")))) = Some "3"
  ∧ count isUpdate
      (calls (IncreasePodRef (K := countedStore) (H := helpers) "shadow" "default"
                (withCount "2"))) = 1%nat.
Proof. by vm_compute. Qed.

Lemma DecreasePodRef_count_written_witness :
  ∃ h2,
    MapPut (Some 1%positive) "kt-ref-count" "2" (heap (withCount "3")) = Some h2
    ∧ entry (Some 1%positive) "kt-ref-count" h2 = Some "2"
    ∧ ∀ r w3,
        Update (Kubernetes := countedStore) "default" counted (mkWorld h2 1%nat) = (r, w3) →
        DecreasePodRef (K := countedStore) (H := helpers) "shadow" "default" (withCount "3")
        = (Done (false, match r with inr err => Some err | inl _ => None end), w3,
           [PodsGet "shadow" "default" (inl counted); PodsUpdate counted r]).
Proof.
  apply (DecreasePodRef_count_written (K := countedStore) (H := helpers)
           "shadow" "default" (withCount "3") (mkWorld (heap (withCount "3")) 1%nat)
           counted "2").
  - reflexivity.
  - unfold valid. cbn. rewrite elem_of_dom. eexists. by vm_compute.
  - by vm_compute.
  - by vm_compute.
Defined.

Lemma DecreasePodRef_cleanup_only_for_one_witness :
  (None : option error) = None
  ∧ ∃ p, calls (DecreasePodRef (K := countedStore) (H := helpers) "shadow" "default"
                  (withCount "1"))
         = [PodsGet "shadow" "default" (inl p)]
         ∧ index (Annotations p) "kt-ref-count"
             (heap (after (DecreasePodRef (K := countedStore) (H := helpers)
                             "shadow" "default" (withCount "1")))) = "1".
Proof.
  apply (DecreasePodRef_cleanup_only_for_one (K := countedStore) (H := helpers)
           "shadow" "default" (withCount "1") None).
  by vm_compute.
Defined.

Lemma ExecInPod_error_cases_witness :
  ∃ err',
    ExecInPod (K := failingCommand) (H := helpers) "shadow" "shadow" "default" ["ls"] start
    = (Done ("total 0", "1:02PM ERR exec failed error: usage 100%", err'), start,
       [ExecStream "shadow" "shadow" "default" ["ls"]])
    ∧ (∀ e, None = Some e → err' = Some e)
    ∧ (err' = None
       ↔ (None : option error) = None
         ∧ embeddedError "1:02PM ERR exec failed error: usage 100%" = "").
Proof.
  apply (ExecInPod_error_cases (K := failingCommand) (H := helpers)
           "shadow" "shadow" "default" ["ls"] start start
           (fst (fst (Stream (Kubernetes := failingCommand) "" "" "" [] start).1))
           (snd (fst (Stream (Kubernetes := failingCommand) "" "" "" [] start).1))
           None).
  reflexivity.
Defined.
